(** * ImOnBus: the safety-data batch script

    A shallow embedding of [scripts/process_safety_data.py] and the
    verification of its specification.  The script reads three tables (a
    survey, the 2023 incidents, the 2017 street accidents), aggregates them
    and writes one JSON document.

    Numbers.  Python floats are IEEE binary64 values.  A finite value is
    modelled by the rational it denotes, every arithmetic operation by the
    exact operation on rationals followed by rounding to the nearest
    representable value, ties to even ([B64.RN]); NaN, the missing value of
    pandas, is [None].  Infinities and the sign of zero are not tracked:
    the script applies arithmetic to coordinates inside the bounding box,
    to rates between 0 and 1 and to counts only.  The section
    [Hardware] compares the rounding function with Rocq's primitive
    binary64 floats on the constants of the script.

    Library calls.  [round] is the builtin on Python floats, which rounds
    the exact value correctly; [Series.mean] adds the values from left to
    right and divides by their number.  Where pandas hands over numpy
    scalars or sums in another order, the last bit of a mean, or the last
    decimal of a rounding whose scaled argument is within a rounding
    error of a tie, can differ from the model.

    Tables.  A pandas row is a finite map from column labels to cells; a
    label without a cell reads as the missing value.  Python dictionaries
    are finite maps ([gmap]); the order of their keys is not modelled. *)

From Stdlib Require Import QArith Qround Qabs Qpower Lqa ZArith Lia.
From Stdlib Require Import PrimFloat FloatOps SpecFloat.
From stdpp Require Import gmap strings list fin_maps pretty.

(** ** Binary64 rounding on rationals *)

Module B64.
Local Open Scope Q_scope.

Definition pow2 (e : Z) : Q := 2 ^ e.

(** [ilog2 a] is the integer [k] with [2^k <= a < 2^(k+1)], for [0 < a]. *)
Definition ilog2 (a : Q) : Z :=
  let k := (Z.log2 (Qnum a) - Z.log2 (Zpos (Qden a)))%Z in
  if Qle_bool (pow2 k) a then k else (k - 1)%Z.

(** Rounding a rational to the nearest integer, ties to the even one. *)
Definition rne (q : Q) : Z :=
  let f := Qfloor q in
  match Qcompare (q - inject_Z f) (1#2) with
  | Lt => f
  | Gt => (f + 1)%Z
  | Eq => if Z.even f then f else (f + 1)%Z
  end.

(** 53 bits of precision; the smallest exponent of the last place is -1074
    (subnormal numbers). *)
Definition emin : Z := -1074.
Definition ulp_exp (a : Q) : Z := Z.max (ilog2 a - 52) emin.

(** Rounding with the exponent of the last place fixed. *)
Definition rnd_at (e : Z) (q : Q) : Q := inject_Z (rne (q / pow2 e)) * pow2 e.

(** Round to nearest binary64 value, ties to even.  The result is a reduced
    fraction, so equal values are equal terms. *)
Definition RN (q : Q) : Q :=
  if Qeq_bool q 0 then 0 else
  let e := ulp_exp (Qabs q) in
  Qred (inject_Z (rne (q / pow2 e)) * pow2 e).

End B64.

(** ** Python numbers *)

(** A float is a finite binary64 value or NaN. *)
Definition float : Type := option Q.
Definition NaN : float := None.

(** A float literal denotes the nearest binary64 value. *)
Definition lit (q : Q) : Q := B64.RN q.

Definition fadd (x y : Q) : Q := B64.RN (x + y).
Definition fmul (x y : Q) : Q := B64.RN (x * y).
Definition fdiv (x y : Q) : Q := B64.RN (x / y).

(** [float(n)] for a Python integer. *)
Definition of_int (n : Z) : Q := B64.RN (inject_Z n).

(** [round(x, ndigits)] on a finite float: the decimal with [ndigits]
    fractional digits nearest to the exact value of [x] (ties to even),
    converted back to the nearest float. *)
Definition py_round (x : Q) (ndigits : Z) : Q :=
  let s := (10 ^ ndigits)%Q in
  B64.RN (inject_Z (B64.rne (x * s)) / s).

(** Arithmetic on possibly-NaN operands: NaN propagates. *)
Definition lift2 (op : Q → Q → Q) (x y : float) : float :=
  match x, y with
  | Some a, Some b => Some (op a b)
  | _, _ => NaN
  end.

Definition round_f (x : float) (ndigits : Z) : float :=
  match x with
  | Some v => Some (py_round v ndigits)
  | None => NaN
  end.

(** [pd.isna], [pd.notna]. *)
Definition isna {A : Type} (x : option A) : bool :=
  match x with Some _ => false | None => true end.

(** Comparisons with NaN are false. *)
Definition f_ge (x : float) (c : Q) : bool :=
  match x with Some v => Qle_bool c v | None => false end.
Definition f_le (x : float) (c : Q) : bool :=
  match x with Some v => Qle_bool v c | None => false end.

(** A value of a [scores] dictionary: a float or an integer. *)
Inductive num : Type :=
| Float (f : float)
| Int (n : Z).

(** [x * w] for a dictionary value [x] and a float [w]. *)
Definition num_mul (x : num) (w : Q) : float :=
  match x with
  | Float f => lift2 fmul f (Some w)
  | Int n => Some (fmul (of_int n) w)
  end.

(** The builtin [sum]: it starts from the integer 0 and adds from left to
    right. *)
Definition py_sum (l : list float) : float :=
  foldl (lift2 fadd) (Some (of_int 0)) l.

(** ** [repr] of a float: the shortest decimal that reads back as the value *)

(** [ilog10 a] is the integer [k] with [10^k <= a < 10^(k+1)], for [0 < a]. *)
Definition ilog10 (a : Q) : Z :=
  let est := (B64.ilog2 a * 30103 / 100000)%Z in
  if Qle_bool (10 ^ (est + 1)) a then (est + 1)%Z
  else if Qle_bool (10 ^ est) a then est
  else (est - 1)%Z.

(** Search for the least number of significant digits [k] whose nearest
    [k]-digit decimal rounds to [a]; 17 digits always do.  The result is
    the integer made of the digits and the power of ten that scales it. *)
Fixpoint shortest_digits (a : Q) (dexp : Z) (k : nat) (fuel : nat) : Z * Z :=
  let e10 := (dexp - Z.of_nat k + 1)%Z in
  let n := B64.rne (a / 10 ^ e10) in
  match fuel with
  | O => (n, e10)
  | S fuel' =>
      if Qeq_bool (B64.RN (inject_Z n * 10 ^ e10)) a then (n, e10)
      else shortest_digits a dexp (S k) fuel'
  end.

Fixpoint zeros (n : nat) : string :=
  match n with
  | O => EmptyString
  | S n' => "0" +:+ zeros n'
  end.

Definition pad2 (s : string) : string :=
  if (String.length s <? 2)%nat then "0" +:+ s else s.

(** The layout of [repr]: fixed notation while the decimal point lies
    within the digits or close to them, exponent notation otherwise. *)
Definition layout (ds : string) (decpt : Z) : string :=
  let k := Z.of_nat (String.length ds) in
  if ((decpt <=? -4) || (16 <? decpt))%Z then
    let e := (decpt - 1)%Z in
    String.substring 0 1 ds
    +:+ (if (1 <? k)%Z then "." +:+ String.substring 1 (String.length ds - 1) ds else EmptyString)
    +:+ "e" +:+ (if (e <? 0)%Z then "-" else "+") +:+ pad2 (pretty (Z.abs e))
  else if (decpt <=? 0)%Z then
    "0." +:+ zeros (Z.to_nat (- decpt)) +:+ ds
  else if (k <=? decpt)%Z then
    ds +:+ zeros (Z.to_nat (decpt - k)) +:+ ".0"
  else
    String.substring 0 (Z.to_nat decpt) ds
    +:+ "." +:+ String.substring (Z.to_nat decpt) (String.length ds - Z.to_nat decpt) ds.

Definition repr (x : Q) : string :=
  if Qeq_bool x 0 then "0.0" else
  let a := Qabs x in
  let '(n, e10) := shortest_digits a (ilog10 a) 1 16 in
  let '(n, e10) := if (n mod 10 =? 0)%Z then ((n / 10)%Z, (e10 + 1)%Z) else (n, e10) in
  let ds := pretty n in
  (if Qle_bool 0 x then EmptyString else "-")
  +:+ layout ds (e10 + Z.of_nat (String.length ds)).

(** ** Strings *)

(** [str.lower] on the letters A to Z. *)
Definition lower_ascii (c : Ascii.ascii) : Ascii.ascii :=
  let n := Ascii.nat_of_ascii c in
  if ((65 <=? n) && (n <=? 90))%nat then Ascii.ascii_of_nat (n + 32) else c.

Fixpoint lower (s : string) : string :=
  match s with
  | EmptyString => EmptyString
  | String c s' => String (lower_ascii c) (lower s')
  end.

(** [needle in hay]. *)
Fixpoint contains (needle hay : string) : bool :=
  String.prefix needle hay ||
  match hay with
  | EmptyString => false
  | String _ hay' => contains needle hay'
  end.

(** ** Errors *)

Inductive exn : Type := KeyError | IndexError | ValueError.

Inductive result (A : Type) : Type :=
| Ok (a : A)
| Raise (e : exn).
Arguments Ok {A} a.
Arguments Raise {A} e.

(** Sequencing: an exception ends the run.  The instance gives the
    notation [x ← m; k]. *)
Definition bind {A B : Type} (k : A → result B) (m : result A) : result B :=
  match m with
  | Ok a => k a
  | Raise e => Raise e
  end.

#[global] Instance result_bind : MBind result := @bind.

(** [l[0]]. *)
Definition first {A : Type} (l : list A) : result A :=
  match l with
  | x :: _ => Ok x
  | [] => Raise IndexError
  end.

(** [math.floor]: an integer, or an error on NaN. *)
Definition floor (x : float) : result Z :=
  match x with
  | Some v => Ok (Qfloor v)
  | None => Raise ValueError
  end.

(** ** Tables *)

Record DataFrame (A : Type) : Type := mkDataFrame {
  columns : list string;
  rows : list (gmap string A)
}.
Arguments mkDataFrame {A} columns rows.
Arguments columns {A} d.
Arguments rows {A} d.

(** [group[col]]: the cells of a column, row by row. *)
Definition column {A : Type} (rs : list (gmap string A)) (col : string) : list (option A) :=
  (λ r, r !! col) <$> rs.

(** ** 1) Survey data: neighborhood risk scores *)

(** [[c for c in df.columns if p(c.lower())]]. *)
Definition resolve (p : string → bool) (cols : list string) : list string :=
  filter (λ c, p (lower c) = true) cols.

Definition quartiere_col (cols : list string) : list string :=
  resolve (λ c, contains "quartiere_abita" c || contains "quale_quartiere" c) cols.

Definition problem_cols_yes (cols : list string) : list string :=
  resolve (λ c, contains "problemiquartiere" c && contains "scala_1" c) cols.

Definition problem_cols_intensity (cols : list string) : list string :=
  resolve (λ c, contains "problemiquartiere" c && contains "scala_2" c) cols.

(** The six problems with the token that finds their columns. *)
Definition problems : list (string * string) :=
  [ ("spaccio", "spaccio"); ("criminali", "criminal"); ("ragazzini", "ragazzini");
    ("illuminazione", "illuminaz"); ("degrado_marciapiedi", "marciapiedi");
    ("barboni", "barboni") ].

Definition key_cols (pcols : list string) : list (string * list string) :=
  (λ '(name, token), (name, resolve (contains token) pcols)) <$> problems.

Definition key_problems (cols : list string) : list (string * list string) :=
  key_cols (problem_cols_yes cols).

Definition key_intensity (cols : list string) : list (string * list string) :=
  key_cols (problem_cols_intensity cols).

(** The first quartiere column, else the first column that mentions
    quartiere at all, else nothing. *)
Definition q_col (cols : list string) : option string :=
  match quartiere_col cols with
  | c :: _ => Some c
  | [] => head (resolve (contains "quartiere") cols)
  end.

Definition intensity_map : gmap string Q :=
  {[ "Molto" := lit 1.0; "Moltissimo" := lit 1.0; "Abbastanza" := lit 0.7;
     "Poco" := lit 0.3; "Per nulla" := lit 0.0 ]}.

Definition yes_map : gmap string Q :=
  {[ "Sì" := lit 1.0; "No" := lit 0.0; "Si" := lit 1.0 ]}.

(** [Series.map(d)]: a cell that is missing or is no key of [d] becomes
    NaN. *)
Definition series_map (d : gmap string Q) (s : list (option string)) : list float :=
  (λ c, c ≫= (d !!.)) <$> s.

(** [Series.mean()]: NaN cells are skipped; the mean of nothing is NaN. *)
Definition nansum (s : list float) : Q :=
  foldl (λ acc x, match x with Some v => fadd acc v | None => acc end) (lit 0.0) s.

Definition count_valid (s : list float) : nat :=
  length (filter (λ x, isna x = false) s).

Definition mean (s : list float) : float :=
  match count_valid s with
  | O => NaN
  | n => Some (fdiv (nansum s) (of_int (Z.of_nat n)))
  end.

(** [round(m, 3) if not pd.isna(m) else 0.0] for the mean [m] of the
    mapped column. *)
Definition rate (d : gmap string Q) (group : list (gmap string string)) (col : string) : float :=
  let m := mean (series_map d (column group col)) in
  if negb (isna m) then round_f m 3 else Some (lit 0.0).

(** One of the two loops over the problems: a problem with at least one
    column gets an entry computed from the first of them. *)
Definition add_rates (d : gmap string Q) (suffix : string)
    (key : list (string * list string)) (group : list (gmap string string))
    (scores : gmap string num) : gmap string num :=
  foldl (λ sc '(problem_name, cols),
           match cols with
           | col :: _ => <[problem_name +:+ suffix := Float (rate d group col)]> sc
           | [] => sc
           end) scores key.

Definition weights : list (string * Q) :=
  [ ("spaccio_rate", lit 0.25); ("criminali_rate", lit 0.25);
    ("ragazzini_rate", lit 0.15); ("illuminazione_rate", lit 0.15);
    ("degrado_marciapiedi_rate", lit 0.10); ("barboni_rate", lit 0.10) ].

(** [sum(scores.get(k, 0) * w for k, w in weights.items())]. *)
Definition risk (scores : gmap string num) : float :=
  py_sum ((λ '(k, w), num_mul (default (Int 0) (scores !! k)) w) <$> weights).

(** The body of the loop over the groups. *)
Definition group_scores (kp ki : list (string * list string))
    (group : list (gmap string string)) : gmap string num :=
  let scores := add_rates yes_map "_rate" kp group ∅ in
  let scores := add_rates intensity_map "_intensity" ki group scores in
  let scores := <["risk_score" := Float (round_f (risk scores) 3)]> scores in
  <["count" := Int (Z.of_nat (length group))]> scores.

(** [df.groupby(q)]: the rows of each label, in their order; a row whose
    label is missing is in no group. *)
Definition groupby (q : string) (rs : list (gmap string string))
  : gmap string (list (gmap string string)) :=
  foldr (λ r m,
           match r !! q with
           | Some k => <[k := r :: default [] (m !! k)]> m
           | None => m
           end) ∅ rs.

Definition neighborhood_scores (df : DataFrame string) (q : string)
  : gmap string (gmap string num) :=
  group_scores (key_problems (columns df)) (key_intensity (columns df))
    <$> groupby q (rows df).

(** ** 2) Incident data 2023: the grid *)

(** The mask of the Bari area. *)
Definition in_bari (lat_col lon_col : string) (r : gmap string Q) : bool :=
  f_ge (r !! lat_col) (lit 41.02) && f_le (r !! lat_col) (lit 41.17) &&
  f_ge (r !! lon_col) (lit 16.72) && f_le (r !! lon_col) (lit 17.08).

Definition df_bari (lat_col lon_col : string) (rs : list (gmap string Q))
  : list (gmap string Q) :=
  filter (λ r, in_bari lat_col lon_col r = true) rs.

Definition GRID_LAT : Q := lit 0.003.
Definition GRID_LON : Q := lit 0.004.

(** [round(math.floor(x / step) * step, 4)]. *)
Definition grid_coord (x : float) (step : Q) : result Q :=
  n ← floor (lift2 fdiv x (Some step));
  Ok (py_round (fmul (of_int n) step) 4).

Definition grid_key (lat lon : float) : result string :=
  glat ← grid_coord lat GRID_LAT;
  glon ← grid_coord lon GRID_LON;
  Ok (repr glat +:+ "," +:+ repr glon).

(** The loop that counts the incidents of each cell. *)
Fixpoint count_cells (lat_col lon_col : string) (rs : list (gmap string Q))
    (grid_counts : gmap string Z) : result (gmap string Z) :=
  match rs with
  | [] => Ok grid_counts
  | r :: rs' =>
      key ← grid_key (r !! lat_col) (r !! lon_col);
      count_cells lat_col lon_col rs'
        (<[key := (default 0 (grid_counts !! key) + 1)%Z]> grid_counts)
  end.

(** [max(grid_counts.values())] fails on an empty dictionary; its value
    is only printed. *)
Definition check_max (grid_counts : gmap string Z) : result unit :=
  if decide (grid_counts = ∅) then Raise ValueError else Ok ().

Definition incident_points (lat_col lon_col : string) (rs : list (gmap string Q))
  : list (float * float) :=
  (λ r, (round_f (r !! lat_col) 5, round_f (r !! lon_col) 5)) <$> rs.

(** ** 3) Sinistri 2017: street danger scores *)

(** [Series.value_counts().to_dict()]: the occurrences of each name;
    missing names are not counted. *)
Definition value_counts (col : string) (rs : list (gmap string string)) : gmap string Z :=
  foldr (λ r m,
           match r !! col with
           | Some s => <[s := (default 0 (m !! s) + 1)%Z]> m
           | None => m
           end) ∅ rs.

(** [{k: v for k, v in street_incidents.items() if v >= 2 and pd.notna(k)}]. *)
Definition street_danger (street_incidents : gmap string Z) : gmap string Z :=
  filter (λ kv, (2 ≤ kv.2)%Z ∧ isna (Some kv.1) = false) street_incidents.

(** ** 4) Unsafe places from the survey *)

Definition unsafe_places_cols (cols : list string) : list string :=
  resolve (contains "luoghiinsicurezza") cols.

(** [(df[col] == 'Selezionato').sum()] for each of the columns. *)
Definition unsafe_places (df : DataFrame string) : list (string * Z) :=
  (λ col, (col, Z.of_nat (length (filter (λ c, c = Some "Selezionato")
                                     (column (rows df) col)))))
    <$> unsafe_places_cols (columns df).

(** ** 5) Output *)

Record Output : Type := mkOutput {
  neighborhoodScores : gmap string (gmap string num);
  incidentGrid : gmap string Z;
  gridConfig : gmap string Q;
  dangerousStreets : gmap string Z;
  incidentPoints2023 : list (float * float)
}.

(** What a run leaves behind: the document handed to [json.dump] and, on
    the console, the tally of the unsafe places. *)
Record Run : Type := mkRun {
  output : Output;
  printed_unsafe_places : list (string * Z)
}.

(** The script, statement by statement.  [df[q_col]] fails when no
    quartiere column was found; taking element 0 of an empty list of
    matching columns fails; so does the maximum of an empty grid. *)
Definition main (df : DataFrame string) (df_2023 : DataFrame Q)
    (df_2017 : DataFrame string) : result Run :=
  q ← match q_col (columns df) with Some q => Ok q | None => Raise KeyError end;
  let neighborhood_scores := neighborhood_scores df q in
  lat_col ← first (resolve (contains "latit") (columns df_2023));
  lon_col ← first (resolve (contains "longit") (columns df_2023));
  let bari := df_bari lat_col lon_col (rows df_2023) in
  grid_counts ← count_cells lat_col lon_col bari ∅;
  _ ← check_max grid_counts;
  let incident_points := incident_points lat_col lon_col bari in
  street_col ← first (resolve (contains "denominaz") (columns df_2017));
  let street_danger := street_danger (value_counts street_col (rows df_2017)) in
  let unsafe := unsafe_places df in
  Ok {| output :=
          {| neighborhoodScores := neighborhood_scores;
             incidentGrid := grid_counts;
             gridConfig := {[ "latStep" := GRID_LAT; "lonStep" := GRID_LON ]};
             dangerousStreets := street_danger;
             incidentPoints2023 := take 500 incident_points |};
        printed_unsafe_places := unsafe |}.


(** ** The specification's own words, for comparison with the code *)

(** The contribution of one rate field to the risk score: its rate times
    its weight, or 0 when the field is absent. *)
Definition contribution (scores : gmap string num) (field : string) (weight : Q) : float :=
  match scores !! field with
  | Some x => num_mul x weight
  | None => Some 0%Q
  end.

(** The weighted sum of the six rate fields. *)
Definition weighted_sum (scores : gmap string num) : float :=
  let add := lift2 fadd in
  add (add (add (add (add (add (Some 0%Q)
    (contribution scores "spaccio_rate" (lit 0.25)))
    (contribution scores "criminali_rate" (lit 0.25)))
    (contribution scores "ragazzini_rate" (lit 0.15)))
    (contribution scores "illuminazione_rate" (lit 0.15)))
    (contribution scores "degrado_marciapiedi_rate" (lit 0.10)))
    (contribution scores "barboni_rate" (lit 0.10)).

(** The largest weighted sum: every rate is 1. *)
Definition full_sum : Q :=
  fadd (fadd (fadd (fadd (fadd (fadd 0%Q (fmul 1%Q (lit 0.25%Q))) (fmul 1%Q (lit 0.25%Q)))
    (fmul 1%Q (lit 0.15%Q))) (fmul 1%Q (lit 0.15%Q))) (fmul 1%Q (lit 0.10%Q))) (fmul 1%Q (lit 0.10%Q)).

(** The respondents of all neighborhoods together. *)
Definition count_of (scores : gmap string num) : Z :=
  match scores !! "count" with
  | Some (Int n) => n
  | _ => 0%Z
  end.

Definition total_count (ns : gmap string (gmap string num)) : Z :=
  map_fold (λ _ scores acc, count_of scores + acc)%Z 0%Z ns.

(** An entry of a [scores] dictionary that is not NaN. *)
Definition not_nan (x : num) : Prop := x ≠ Float NaN.

(** The mappable values of a column: the images of the cells that are
    keys of the lookup table, in order. *)
Definition mapped_values (d : gmap string Q) (cells : list (option string)) : list Q :=
  omap (λ c, c ≫= (d !!.)) cells.

(** The arithmetic mean of a non-empty list of values. *)
Definition arithmetic_mean (vs : list Q) : Q :=
  fdiv (foldl fadd 0%Q vs) (of_int (Z.of_nat (length vs))).





(** Whether a run, or a stage of it, completed. *)
Definition is_ok {A : Type} (r : result A) : bool :=
  match r with Ok _ => true | Raise _ => false end.

(** ** Sample tables *)

(** The scenarios of the specification: three respondents of one
    neighborhood, two nearby incidents, three street records. *)
Definition survey_A : DataFrame string :=
  mkDataFrame ["quartiere_abita"; "problemiquartiere_spaccio_scala_1"]
    [ {[ "quartiere_abita" := "A"; "problemiquartiere_spaccio_scala_1" := "Sì" ]};
      {[ "quartiere_abita" := "A"; "problemiquartiere_spaccio_scala_1" := "Sì" ]};
      {[ "quartiere_abita" := "A"; "problemiquartiere_spaccio_scala_1" := "No" ]} ].

Definition incidents_2 : DataFrame Q :=
  mkDataFrame ["latitudine"; "longitudine"]
    [ {[ "latitudine" := lit 41.050%Q; "longitudine" := lit 16.800%Q ]};
      {[ "latitudine" := lit 41.0505%Q; "longitudine" := lit 16.8005%Q ]} ].

Definition streets_3 : DataFrame string :=
  mkDataFrame ["denominazione_strada"]
    [ {[ "denominazione_strada" := "Via A" ]};
      {[ "denominazione_strada" := "Via A" ]};
      {[ "denominazione_strada" := "Via B" ]} ].

(** A survey with a respondent who gave no neighborhood and answers
    outside the tables. *)
Definition survey_gaps : DataFrame string :=
  mkDataFrame ["quartiere_abita"; "problemiquartiere_spaccio_scala_1";
               "problemiquartiere_spaccio_scala_2"; "luoghiinsicurezza_1_parchi"]
    [ {[ "quartiere_abita" := "A"; "problemiquartiere_spaccio_scala_1" := "Forse";
         "luoghiinsicurezza_1_parchi" := "Selezionato" ]};
      {[ "problemiquartiere_spaccio_scala_1" := "Sì";
         "problemiquartiere_spaccio_scala_2" := "Molto" ]};
      {[ "quartiere_abita" := "B"; "problemiquartiere_spaccio_scala_1" := "No";
         "problemiquartiere_spaccio_scala_2" := "Abbastanza" ]} ].





(** The conversion of a primitive binary64 float to the rational it
    denotes, for the comparison of [B64.RN] with the hardware operations. *)
Definition Prim2Q (f : PrimFloat.float) : option Q :=
  match Prim2SF f with
  | S754_zero _ => Some 0%Q
  | S754_finite s m e =>
      Some (Qred ((if s then -1 else 1) * inject_Z (Zpos m) * B64.pow2 e)%Q)
  | _ => None
  end.

(** ** Further notions for the properties of the stages *)

(** The sum of the counts of a dictionary. *)
Definition counts_total (m : gmap string Z) : Z :=
  map_fold (λ _ n acc, n + acc)%Z 0%Z m.



(** An entry of a [scores] dictionary that is a number between 0 and 1. *)
Definition unit_entry (x : num) : Prop :=
  ∃ v, x = Float (Some v) ∧ (0 <= v ∧ v <= 1)%Q.

(** A column name that the first search for the quartiere column finds. *)
Definition primary (c : string) : bool :=
  contains "quartiere_abita" (lower c) || contains "quale_quartiere" (lower c).



(** A rate field that is not smaller in the second dictionary: absent or
    a non-negative number in the first, a number at least as large in the
    second. *)
Definition rate_le (x y : option num) : Prop :=
  match x, y with
  | None, None => True
  | None, Some (Float (Some b)) => (0 <= b)%Q
  | Some (Float (Some a)), Some (Float (Some b)) => (0 <= a ∧ a <= b)%Q
  | _, _ => False
  end.

(** The dictionary in which each of the six rates is 1.0. *)
Definition all_ones : gmap string num :=
  list_to_map ((λ kw, (kw.1, Float (Some 1%Q))) <$> weights).

(** * Properties *)

(** ** Rounding is monotone *)

Module B64Facts.
Import B64.
Local Open Scope Q_scope.

Lemma pow2_pos e : 0 < pow2 e.
Proof. apply Qpower_0_lt. reflexivity. Qed.

Lemma pow2_add a b : pow2 (a + b) == pow2 a * pow2 b.
Proof. apply Qpower_plus. discriminate. Qed.

Lemma pow2_le a b : (a <= b)%Z -> pow2 a <= pow2 b.
Proof. intros H. apply Qpower_le_compat_l; [exact H | discriminate]. Qed.

Lemma pow2_lt a b : (a < b)%Z -> pow2 a < pow2 b.
Proof. intros H. apply Qpower_lt_compat_l; [exact H | reflexivity]. Qed.

Lemma pow2_lt_inv a b : pow2 a < pow2 b -> (a < b)%Z.
Proof. intros H. apply (Qpower_lt_compat_l_inv 2); [exact H | reflexivity]. Qed.

Lemma pow2_Z n : (0 <= n)%Z -> pow2 n == inject_Z (2 ^ n).
Proof. intros H. unfold pow2. now rewrite Zpower_Qpower. Qed.

Lemma pow2_sub a b : pow2 (a - b) == pow2 a / pow2 b.
Proof.
  unfold Z.sub. rewrite pow2_add. unfold pow2 at 2. rewrite Qpower_opp. reflexivity.
Qed.

Lemma ilog2_rough (a : Q) :
  0 < a ->
  let k := (Z.log2 (Qnum a) - Z.log2 (Zpos (Qden a)))%Z in
  pow2 (k - 1) < a /\ a < pow2 (k + 1).
Proof.
  destruct a as [n d]. intros Ha. cbn [Qnum Qden].
  assert (Hn : (0 < n)%Z).
  { unfold Qlt in Ha. cbn in Ha. lia. }
  set (ln := Z.log2 n). set (ld := Z.log2 (Z.pos d)).
  destruct (Z.log2_spec n Hn) as [Hn1 Hn2]. fold ln in Hn1, Hn2.
  destruct (Z.log2_spec (Z.pos d) (Pos2Z.is_pos d)) as [Hd1 Hd2]. fold ld in Hd1, Hd2.
  assert (Hln : (0 <= ln)%Z) by apply Z.log2_nonneg.
  assert (Hld : (0 <= ld)%Z) by apply Z.log2_nonneg.
  assert (E1 : pow2 (ln - ld - 1) == inject_Z (2 ^ ln) / inject_Z (2 ^ (ld + 1))).
  { replace (ln - ld - 1)%Z with (ln - (ld + 1))%Z by lia.
    rewrite pow2_sub, !pow2_Z by lia. reflexivity. }
  assert (E2 : pow2 (ln - ld + 1) == inject_Z (2 ^ (ln + 1)) / inject_Z (2 ^ ld)).
  { replace (ln - ld + 1)%Z with (ln + 1 - ld)%Z by lia.
    rewrite pow2_sub, !pow2_Z by lia. reflexivity. }
  cbv zeta. rewrite E1, E2.
  assert (P1 : (0 < 2 ^ ld)%Z) by (apply Z.pow_pos_nonneg; lia).
  assert (P2 : (0 < 2 ^ (ld + 1))%Z) by (apply Z.pow_pos_nonneg; lia).
  unfold Qdiv, Qlt, Qmult, Qinv, inject_Z. cbn [Qnum Qden].
  destruct (2 ^ ld)%Z as [|pl|pl] eqn:El; try lia.
  destruct (2 ^ (ld + 1))%Z as [|pl1|pl1] eqn:El1; try lia.
  cbn [Qnum Qden]. split.
  - rewrite !Z.mul_1_r, !Pos.mul_1_l. nia.
  - rewrite !Z.mul_1_r, !Pos.mul_1_l. nia.
Qed.

Lemma ilog2_spec (a : Q) :
  0 < a -> pow2 (ilog2 a) <= a /\ a < pow2 (ilog2 a + 1).
Proof.
  intros Ha. destruct (ilog2_rough a Ha) as [H1 H2]. cbv zeta in H1, H2.
  unfold ilog2.
  destruct (Qle_bool _ a) eqn:E.
  - apply Qle_bool_iff in E. split; assumption.
  - split.
    + apply Qlt_le_weak. exact H1.
    + replace (_ - 1 + 1)%Z with (Z.log2 (Qnum a) - Z.log2 (Z.pos (Qden a)))%Z by lia.
      apply Qnot_le_lt. intros C. apply Qle_bool_iff in C. congruence.
Qed.

Lemma ilog2_mono x y : 0 < x -> x <= y -> (ilog2 x <= ilog2 y)%Z.
Proof.
  intros Hx Hxy.
  assert (Hy : 0 < y) by (eapply Qlt_le_trans; eassumption).
  destruct (ilog2_spec x Hx) as [A _]. destruct (ilog2_spec y Hy) as [_ B].
  assert (pow2 (ilog2 x) < pow2 (ilog2 y + 1)).
  { eapply Qle_lt_trans; [exact A|]. eapply Qle_lt_trans; eassumption. }
  apply pow2_lt_inv in H. lia.
Qed.

Lemma rne_comp x y : x == y -> rne x = rne y.
Proof.
  intros E. unfold rne. rewrite (Qfloor_comp _ _ E).
  assert (E' : x - inject_Z (Qfloor y) == y - inject_Z (Qfloor y)) by (rewrite E; reflexivity).
  rewrite (Qcompare_comp _ _ E' _ _ (Qeq_refl (1#2))). reflexivity.
Qed.

Lemma rne_bounds q : (Qfloor q <= rne q <= Qfloor q + 1)%Z.
Proof.
  unfold rne. destruct (Qcompare _ _); [destruct (Z.even _)| |]; lia.
Qed.

Lemma rne_Z n : rne (inject_Z n) = n.
Proof.
  unfold rne. rewrite Qfloor_Z.
  destruct (Qcompare_spec (inject_Z n - inject_Z n) (1#2)) as [H|H|H]; try reflexivity.
  - exfalso. lra.
  - exfalso. lra.
Qed.

Lemma rne_mono x y : x <= y -> (rne x <= rne y)%Z.
Proof.
  intros Hxy.
  pose proof (Qfloor_resp_le _ _ Hxy) as Hf.
  pose proof (rne_bounds x) as Bx. pose proof (rne_bounds y) as By.
  destruct (Z.eq_dec (Qfloor x) (Qfloor y)) as [E|NE]; [|lia].
  unfold rne. rewrite E.
  destruct (Qcompare_spec (x - inject_Z (Qfloor y)) (1#2)) as [Hx|Hx|Hx];
  destruct (Qcompare_spec (y - inject_Z (Qfloor y)) (1#2)) as [Hy|Hy|Hy];
  try destruct (Z.even (Qfloor y)); try lia; exfalso; lra.
Qed.

Lemma rne_le_Z q n : q <= inject_Z n -> (rne q <= n)%Z.
Proof. intros H. rewrite <- (rne_Z n). now apply rne_mono. Qed.

Lemma Z_le_rne q n : inject_Z n <= q -> (n <= rne q)%Z.
Proof. intros H. rewrite <- (rne_Z n). now apply rne_mono. Qed.


Lemma rnd_at_mono e x y : x <= y -> rnd_at e x <= rnd_at e y.
Proof.
  intros H. unfold rnd_at. apply Qmult_le_compat_r.
  - rewrite <- Zle_Qle. apply rne_mono.
    unfold Qdiv. apply Qmult_le_compat_r; [exact H|].
    apply Qlt_le_weak, Qinv_lt_0_compat, pow2_pos.
  - apply Qlt_le_weak, pow2_pos.
Qed.

Lemma rnd_at_pow2 e j : (e <= j)%Z -> rnd_at e (pow2 j) == pow2 j.
Proof.
  intros H. unfold rnd_at.
  assert (E : pow2 j / pow2 e == inject_Z (2 ^ (j - e))).
  { rewrite <- pow2_sub. apply pow2_Z. lia. }
  rewrite (rne_comp _ _ E), rne_Z, <- pow2_Z by lia.
  rewrite <- pow2_add. replace (j - e + e)%Z with j by lia. reflexivity.
Qed.

Lemma RN_pos a : 0 < a -> RN a == rnd_at (ulp_exp a) a.
Proof.
  intros Ha. unfold RN.
  destruct (Qeq_bool a 0) eqn:E.
  - apply Qeq_bool_iff in E. rewrite E in Ha. discriminate.
  - rewrite Qred_correct. unfold rnd_at.
    assert (Habs : Qabs a == a) by (apply Qabs_pos; apply Qlt_le_weak; exact Ha).
    assert (Eu : ulp_exp (Qabs a) = ulp_exp a).
    { unfold ulp_exp, ilog2. destruct a as [n d]. unfold Qlt in Ha. cbn in Ha.
      destruct n; try lia. reflexivity. }
    rewrite Eu. reflexivity.
Qed.

Lemma RN_0 : RN 0 = 0.
Proof. reflexivity. Qed.

Lemma RN_zero q : q == 0 -> RN q = 0.
Proof. intros H. unfold RN. apply Qeq_bool_iff in H. now rewrite H. Qed.

Lemma RN_nonneg a : 0 <= a -> 0 <= RN a.
Proof.
  intros Ha. destruct (Qeq_dec a 0) as [E|NE].
  - rewrite (RN_zero _ E). apply Qle_refl.
  - assert (Hp : 0 < a) by (apply Qle_lteq in Ha; destruct Ha as [H|H]; [exact H|symmetry in H; contradiction]).
    rewrite (RN_pos _ Hp). unfold rnd_at.
    apply Qmult_le_0_compat; [|apply Qlt_le_weak, pow2_pos].
    change 0 with (inject_Z 0). rewrite <- Zle_Qle. apply Z_le_rne.
    apply Qle_shift_div_l; [apply pow2_pos|]. rewrite Qmult_0_l. exact Ha.
Qed.

Lemma RN_mono_pos x y : 0 < x -> x <= y -> RN x <= RN y.
Proof.
  intros Hx Hxy.
  assert (Hy : 0 < y) by (eapply Qlt_le_trans; eassumption).
  rewrite (RN_pos x Hx), (RN_pos y Hy).
  pose proof (ilog2_mono x y Hx Hxy) as Hk.
  destruct (ilog2_spec x Hx) as [X1 X2]. destruct (ilog2_spec y Hy) as [Y1 Y2].
  destruct (Z.eq_dec (ulp_exp x) (ulp_exp y)) as [E|NE].
  - rewrite E. now apply rnd_at_mono.
  - assert (Hlt : (ulp_exp x < ulp_exp y)%Z) by (unfold ulp_exp in *; lia).
    assert (Hky : ulp_exp y = (ilog2 y - 52)%Z) by (unfold ulp_exp, emin in *; lia).
    assert (Hkx : (ilog2 x + 1 <= ilog2 y)%Z) by (unfold ulp_exp, emin in *; lia).
    apply Qle_trans with (pow2 (ilog2 y)).
    + rewrite <- (rnd_at_pow2 (ulp_exp x) (ilog2 y)) by lia.
      apply rnd_at_mono. apply Qlt_le_weak. eapply Qlt_le_trans; [exact X2|].
      now apply pow2_le.
    + rewrite <- (rnd_at_pow2 (ulp_exp y) (ilog2 y)) at 1 by lia.
      now apply rnd_at_mono.
Qed.

Lemma RN_mono x y : 0 <= x -> x <= y -> RN x <= RN y.
Proof.
  intros Hx Hxy. destruct (Qeq_dec x 0) as [E|NE].
  - rewrite (RN_zero _ E). apply RN_nonneg. eapply Qle_trans; eassumption.
  - apply RN_mono_pos; [|exact Hxy].
    apply Qle_lteq in Hx. destruct Hx as [H|H]; [exact H|symmetry in H; contradiction].
Qed.


End B64Facts.

(** ** Float operations on non-negative values *)

Section FloatFacts.
Local Open Scope Q_scope.
Import B64Facts.

Lemma fmul_mono_l x y w : 0 <= x -> x <= y -> 0 <= w -> fmul x w <= fmul y w.
Proof.
  intros Hx Hxy Hw. unfold fmul. apply RN_mono.
  - now apply Qmult_le_0_compat.
  - now apply Qmult_le_compat_r.
Qed.

Lemma fmul_nonneg x w : 0 <= x -> 0 <= w -> 0 <= fmul x w.
Proof. intros Hx Hw. apply RN_nonneg. now apply Qmult_le_0_compat. Qed.

Lemma fadd_mono a b c d :
  0 <= a -> a <= b -> 0 <= c -> c <= d -> fadd a c <= fadd b d.
Proof.
  intros Ha Hab Hc Hcd. unfold fadd. apply RN_mono; lra.
Qed.

Lemma fadd_nonneg a c : 0 <= a -> 0 <= c -> 0 <= fadd a c.
Proof. intros Ha Hc. apply RN_nonneg. lra. Qed.

Lemma pow10_pos n : 0 < 10 ^ n.
Proof. apply Qpower_0_lt. reflexivity. Qed.

Lemma py_round_nonneg x nd : 0 <= x -> 0 <= py_round x nd.
Proof.
  intros Hx. unfold py_round. apply RN_nonneg.
  apply Qle_shift_div_l; [apply pow10_pos|]. rewrite Qmult_0_l.
  change 0 with (inject_Z 0). rewrite <- Zle_Qle. apply Z_le_rne.
  apply Qmult_le_0_compat; [exact Hx|]. apply Qlt_le_weak, pow10_pos.
Qed.

Lemma py_round_mono x y nd : 0 <= x -> x <= y -> py_round x nd <= py_round y nd.
Proof.
  intros Hx Hxy. unfold py_round. pose proof (pow10_pos nd) as Hp.
  apply RN_mono.
  - apply Qle_shift_div_l; [exact Hp|]. rewrite Qmult_0_l.
    change 0 with (inject_Z 0). rewrite <- Zle_Qle. apply Z_le_rne.
    apply Qmult_le_0_compat; [exact Hx|]. now apply Qlt_le_weak.
  - unfold Qdiv. apply Qmult_le_compat_r.
    + rewrite <- Zle_Qle. apply rne_mono. apply Qmult_le_compat_r; [exact Hxy|].
      now apply Qlt_le_weak.
    + now apply Qlt_le_weak, Qinv_lt_0_compat.
Qed.

End FloatFacts.

(** ** The risk score *)

Section RiskScore.
Local Open Scope Q_scope.
Import B64Facts.

Lemma fmul_0_l w : fmul 0 w = 0.
Proof. unfold fmul. apply RN_zero. ring. Qed.

Lemma of_int_0 : of_int 0 = 0.
Proof. reflexivity. Qed.

(** The generator expression of the script computes the weighted sum of
    the specification. *)
Lemma risk_weighted_sum (scores : gmap string num) : risk scores = weighted_sum scores.
Proof.
  unfold risk, weighted_sum, py_sum, contribution, weights. cbn [fmap list_fmap foldl].
  rewrite of_int_0.
  repeat match goal with
  | |- context [scores !! ?k] => destruct (scores !! k); cbn [default num_mul]
  end; rewrite ?of_int_0, ?fmul_0_l; reflexivity.
Qed.


(** A rate between 0 and 1 contributes between 0 and its weight. *)
Lemma contribution_bounds (scores : gmap string num) k w :
  0 <= w →
  (∀ x, scores !! k = Some x → ∃ v, x = Float (Some v) ∧ 0 <= v <= 1) →
  ∃ t, contribution scores k w = Some t ∧ 0 <= t <= fmul 1 w.
Proof.
  intros Hw H. unfold contribution. destruct (scores !! k) as [x|].
  - destruct (H x eq_refl) as (v & -> & Hv0 & Hv1). exists (fmul v w). split; [reflexivity|].
    split; [now apply fmul_nonneg | now apply fmul_mono_l].
  - exists 0. split; [reflexivity|]. split; [apply Qle_refl | apply fmul_nonneg; [discriminate | exact Hw]].
Qed.

Lemma add_bounds (s t : float) (S T : Q) :
  (∃ a, s = Some a ∧ 0 <= a <= S) →
  (∃ b, t = Some b ∧ 0 <= b <= T) →
  ∃ c, lift2 fadd s t = Some c ∧ 0 <= c <= fadd S T.
Proof.
  intros (a & -> & Ha0 & Ha1) (b & -> & Hb0 & Hb1). exists (fadd a b).
  split; [reflexivity|]. split; [now apply fadd_nonneg | now apply fadd_mono].
Qed.

Lemma full_sum_rounds_to_1 : py_round full_sum 3 <= 1.
Proof. apply Qle_bool_iff. vm_compute. reflexivity. Qed.

Lemma weighted_sum_bounds (scores : gmap string num) :
  (∀ k x, k ∈ weights.*1 → scores !! k = Some x → ∃ v, x = Float (Some v) ∧ 0 <= v <= 1) →
  ∃ v, weighted_sum scores = Some v ∧ 0 <= v <= full_sum.
Proof.
  intros H. unfold weighted_sum, full_sum. cbv zeta.
  repeat (apply add_bounds; [| apply contribution_bounds;
    [apply Qle_bool_iff; vm_compute; reflexivity
    | intros x Hx; eapply H; [| exact Hx]; apply list_elem_of_In; cbn; tauto]]).
  exists 0. split; [reflexivity|]. split; apply Qle_refl.
Qed.

End RiskScore.

(** ** The response normalizer *)

Section Normalizer.
Local Open Scope Q_scope.

Lemma nansum_mapped (d : gmap string Q) cells acc :
  foldl (λ acc x, match x with Some v => fadd acc v | None => acc end) acc
    (series_map d cells)
  = foldl fadd acc (mapped_values d cells).
Proof.
  revert acc. induction cells as [|c cells IH]; intros acc; [reflexivity|].
  unfold series_map, mapped_values in *. cbn.
  destruct (c ≫= (d !!.)); cbn; apply IH.
Qed.

Lemma count_valid_mapped (d : gmap string Q) cells :
  count_valid (series_map d cells) = length (mapped_values d cells).
Proof.
  unfold count_valid, series_map, mapped_values.
  induction cells as [|c cells IH]; [reflexivity|].
  rewrite fmap_cons. cbn [omap list_omap].
  destruct (c ≫= (d !!.)).
  - rewrite filter_cons_True by reflexivity. cbn [length]. f_equal. exact IH.
  - rewrite filter_cons_False by discriminate. exact IH.
Qed.

(** The mean as pandas computes it is the arithmetic mean of the mapped
    values, and NaN when there is none. *)
Lemma mean_mapped (d : gmap string Q) cells :
  mean (series_map d cells) =
  match mapped_values d cells with
  | [] => NaN
  | vs => Some (arithmetic_mean vs)
  end.
Proof.
  unfold mean, nansum, arithmetic_mean.
  rewrite count_valid_mapped, nansum_mapped.
  destruct (mapped_values d cells); reflexivity.
Qed.

Lemma rate_mapped (d : gmap string Q) group col :
  rate d group col =
  match mapped_values d (column group col) with
  | [] => Some 0
  | vs => Some (py_round (arithmetic_mean vs) 3)
  end.
Proof.
  unfold rate. rewrite mean_mapped.
  destruct (mapped_values d (column group col)); reflexivity.
Qed.

Lemma rate_not_nan (d : gmap string Q) group col : rate d group col ≠ NaN.
Proof. rewrite rate_mapped. destruct (mapped_values _ _); discriminate. Qed.

Lemma mapped_values_nil (d : gmap string Q) cells :
  (∀ c, c ∈ cells → c ≫= (d !!.) = None) → mapped_values d cells = [].
Proof.
  unfold mapped_values. induction cells as [|c cells IH]; intros H; [reflexivity|].
  cbn. rewrite (H c) by apply list_elem_of_here.
  apply IH. intros c' Hc'. apply H. now apply list_elem_of_further.
Qed.

End Normalizer.

(** ** The entries of a [scores] dictionary *)

Section Scores.

Lemma add_rates_cons d suf x key g sc :
  add_rates d suf (x :: key) g sc =
  add_rates d suf key g
    (match x.2 with
     | col :: _ => <[x.1 +:+ suf := Float (rate d g col)]> sc
     | [] => sc
     end).
Proof. destruct x as [name cols]. reflexivity. Qed.

Lemma add_rates_lookup_ne d suf key g (sc : gmap string num) k :
  Forall (λ x, x.1 +:+ suf ≠ k) key →
  add_rates d suf key g sc !! k = sc !! k.
Proof.
  intros H. revert sc. induction H as [|x key Hx _ IH]; intros sc; [reflexivity|].
  rewrite add_rates_cons, IH. destruct (x.2); [reflexivity|].
  now rewrite lookup_insert_ne.
Qed.

Lemma add_rates_lookup d suf key g (sc : gmap string num) name cols :
  NoDup ((λ x, x.1 +:+ suf) <$> key) →
  (name, cols) ∈ key →
  add_rates d suf key g sc !! (name +:+ suf) =
  match cols with
  | col :: _ => Some (Float (rate d g col))
  | [] => sc !! (name +:+ suf)
  end.
Proof.
  intros Hnd. revert sc. induction key as [|x key IH]; intros sc Hin.
  - now apply elem_of_nil in Hin.
  - cbn in Hnd. apply NoDup_cons in Hnd as [Hx Hnd].
    rewrite add_rates_cons. apply elem_of_cons in Hin as [<-|Hin].
    + rewrite add_rates_lookup_ne.
      * cbn. destruct cols; [reflexivity|]. apply lookup_insert_eq.
      * apply Forall_forall. intros y Hy E. apply Hx.
        apply list_elem_of_fmap. exists y. split; [symmetry; exact E | exact Hy].
    + rewrite (IH Hnd _ Hin).
      assert (Hne : x.1 +:+ suf ≠ name +:+ suf).
      { intros E. apply Hx. rewrite E. apply list_elem_of_fmap.
        exists (name, cols). split; [reflexivity | exact Hin]. }
      destruct cols; [|reflexivity].
      destruct (x.2); [reflexivity|]. now rewrite lookup_insert_ne.
Qed.

End Scores.

Section Emitted.

Lemma key_cols_elem pcols name token :
  (name, token) ∈ problems → (name, resolve (contains token) pcols) ∈ key_cols pcols.
Proof.
  intros H. unfold key_cols. apply list_elem_of_fmap. exists (name, token). split; [reflexivity | exact H].
Qed.

Lemma key_cols_NoDup suf pcols :
  suf = "_rate" ∨ suf = "_intensity" →
  NoDup ((λ x, x.1 +:+ suf) <$> key_cols pcols).
Proof.
  intros [-> | ->]; vm_compute;
    repeat (apply NoDup_cons_2;
            [rewrite ?elem_of_cons, elem_of_nil; intuition discriminate|]);
    apply NoDup_nil_2.
Qed.

Ltac problem_cases H :=
  apply list_elem_of_In in H; cbn in H;
  decompose [or] H; clear H;
  match goal with
  | E : (_, _) = (_, _) |- _ => inversion E; subst; clear E
  | F : False |- _ => destruct F
  end.

(** The entry of a problem in the emitted dictionary: the rate of the
    first matching yes/no column, and no entry without such a column. *)
Lemma emitted_rate cols g name token :
  (name, token) ∈ problems →
  group_scores (key_problems cols) (key_intensity cols) g !! (name +:+ "_rate") =
  match resolve (contains token) (problem_cols_yes cols) with
  | col :: _ => Some (Float (rate yes_map g col))
  | [] => None
  end.
Proof.
  intros Hin. pose proof (key_cols_elem (problem_cols_yes cols) _ _ Hin) as Hk.
  unfold group_scores.
  assert (Hne : name +:+ "_rate" ≠ "count" ∧ name +:+ "_rate" ≠ "risk_score"
               ∧ Forall (λ x, x.1 +:+ "_intensity" ≠ name +:+ "_rate") (key_intensity cols)).
  { problem_cases Hin; (split; [discriminate|split; [discriminate|]]);
      unfold key_intensity, key_cols; cbn; repeat constructor; discriminate. }
  destruct Hne as (N1 & N2 & N3).
  rewrite lookup_insert_ne by congruence. rewrite lookup_insert_ne by congruence.
  rewrite add_rates_lookup_ne by exact N3.
  unfold key_problems. rewrite (add_rates_lookup _ _ _ _ _ name _ (key_cols_NoDup _ _ (or_introl eq_refl)) Hk).
  destruct (resolve _ _); reflexivity.
Qed.

Lemma emitted_intensity cols g name token :
  (name, token) ∈ problems →
  group_scores (key_problems cols) (key_intensity cols) g !! (name +:+ "_intensity") =
  match resolve (contains token) (problem_cols_intensity cols) with
  | col :: _ => Some (Float (rate intensity_map g col))
  | [] => None
  end.
Proof.
  intros Hin. pose proof (key_cols_elem (problem_cols_intensity cols) _ _ Hin) as Hk.
  unfold group_scores.
  assert (Hne : name +:+ "_intensity" ≠ "count" ∧ name +:+ "_intensity" ≠ "risk_score"
               ∧ Forall (λ x, x.1 +:+ "_rate" ≠ name +:+ "_intensity") (key_problems cols)).
  { problem_cases Hin; (split; [discriminate|split; [discriminate|]]);
      unfold key_problems, key_cols; cbn; repeat constructor; discriminate. }
  destruct Hne as (N1 & N2 & N3).
  rewrite lookup_insert_ne by congruence. rewrite lookup_insert_ne by congruence.
  unfold key_intensity. rewrite (add_rates_lookup _ _ _ _ _ name _ (key_cols_NoDup _ _ (or_intror eq_refl)) Hk).
  rewrite add_rates_lookup_ne by exact N3. rewrite lookup_empty.
  destruct (resolve _ _); reflexivity.
Qed.


Lemma emitted_count kp ki g :
  group_scores kp ki g !! "count" = Some (Int (Z.of_nat (length g))).
Proof. unfold group_scores. apply lookup_insert_eq. Qed.

Lemma add_rates_not_nan d suf key g (sc : gmap string num) :
  map_Forall (λ _, not_nan) sc → map_Forall (λ _, not_nan) (add_rates d suf key g sc).
Proof.
  revert sc. induction key as [|x key IH]; intros sc H; [exact H|].
  rewrite add_rates_cons. apply IH. destruct (x.2) as [|col ?]; [exact H|].
  apply map_Forall_insert_2; [|exact H].
  intros E. inversion E as [E']. now apply rate_not_nan in E'.
Qed.

Lemma weighted_sum_not_nan (sc : gmap string num) :
  map_Forall (λ _, not_nan) sc → weighted_sum sc ≠ NaN.
Proof.
  intros H. unfold weighted_sum. cbv zeta.
  assert (C : ∀ k w, ∃ t, contribution sc k w = Some t).
  { intros k w. unfold contribution. destruct (sc !! k) as [x|] eqn:E; [|eauto].
    apply H in E. destruct x as [[v|]|n]; cbn; eauto. now contradiction E. }
  repeat match goal with
  | |- context [contribution sc ?k ?w] =>
      let t := fresh "t" in let E := fresh "E" in
      destruct (C k w) as [t E]; rewrite E; clear E
  end.
  discriminate.
Qed.

Lemma group_scores_not_nan kp ki g :
  map_Forall (λ _, not_nan) (group_scores kp ki g).
Proof.
  unfold group_scores.
  assert (H : map_Forall (λ _, not_nan)
                (add_rates intensity_map "_intensity" ki g (add_rates yes_map "_rate" kp g ∅))).
  { apply add_rates_not_nan, add_rates_not_nan, map_Forall_empty. }
  apply map_Forall_insert_2; [discriminate|].
  apply map_Forall_insert_2; [|exact H].
  rewrite risk_weighted_sum. pose proof (weighted_sum_not_nan _ H) as N.
  destruct (weighted_sum _); [discriminate|contradiction].
Qed.

End Emitted.

(** ** Groups *)

Section Groups.

(** The group of a label holds the rows with that label, in their order;
    a label that no row carries has no group. *)
Lemma groupby_lookup q (rs : list (gmap string string)) k :
  groupby q rs !! k =
  match filter (λ r, r !! q = Some k) rs with
  | [] => None
  | g => Some g
  end.
Proof.
  induction rs as [|r rs IH]; [reflexivity|].
  cbn [groupby foldr]. fold (groupby q rs).
  destruct (r !! q) as [k'|] eqn:E.
  - destruct (decide (k' = k)) as [->|Hne].
    + rewrite lookup_insert_eq, filter_cons_True by exact E.
      rewrite IH. destruct (filter _ rs); reflexivity.
    + rewrite lookup_insert_ne by exact Hne.
      rewrite filter_cons_False by congruence. exact IH.
  - rewrite filter_cons_False by congruence. exact IH.
Qed.

Lemma map_fold_weight_insert (w : list (gmap string string) → Z)
    (m : gmap string (list (gmap string string))) k v :
  map_fold (λ _ g acc, w g + acc)%Z 0%Z (<[k := v]> m) =
  (w v - match m !! k with Some g => w g | None => 0 end
   + map_fold (λ _ g acc, w g + acc)%Z 0%Z m)%Z.
Proof.
  assert (Hc : ∀ (m' : gmap string (list (gmap string string))) i x,
             m' !! i = None →
             map_fold (λ _ g acc, w g + acc)%Z 0%Z (<[i := x]> m') =
             (w x + map_fold (λ _ g acc, w g + acc)%Z 0%Z m')%Z).
  { intros m' i x Hi.
    apply (map_fold_insert_L (λ _ g acc, w g + acc)%Z); [|exact Hi].
    intros. lia. }
  destruct (m !! k) as [g|] eqn:E.
  - rewrite <- (insert_delete_id m k g E) at 2.
    rewrite <- insert_delete_eq.
    rewrite !Hc by apply lookup_delete_eq. lia.
  - rewrite Hc by exact E. lia.
Qed.

(** The sizes of the groups add up to the number of labelled rows. *)
Lemma groupby_total (w : list (gmap string string) → Z) q
    (rs : list (gmap string string)) :
  (∀ g, w g = Z.of_nat (length g)) →
  map_fold (λ _ g acc, w g + acc)%Z 0%Z (groupby q rs) =
  Z.of_nat (length (filter (λ r, is_Some (r !! q)) rs)).
Proof.
  intros Hw. induction rs as [|r rs IH]; [reflexivity|].
  cbn [groupby foldr]. fold (groupby q rs).
  destruct (r !! q) as [k|] eqn:E.
  - rewrite map_fold_weight_insert, IH.
    rewrite filter_cons_True by (rewrite E; eauto).
    rewrite Hw. cbn [length].
    destruct (groupby q rs !! k) as [g|]; [rewrite Hw|]; cbn [default length]; unfold id; lia.
  - rewrite filter_cons_False by (rewrite E; apply is_Some_None). exact IH.
Qed.

End Groups.

(** ** Incidents *)

Section Incidents.
Local Open Scope Q_scope.

Lemma in_bari_spec lat_col lon_col (r : gmap string Q) :
  in_bari lat_col lon_col r = true ↔
  ∃ lat lon, r !! lat_col = Some lat ∧ r !! lon_col = Some lon ∧
             (lit 41.02 <= lat ∧ lat <= lit 41.17) ∧
             (lit 16.72 <= lon ∧ lon <= lit 17.08).
Proof.
  unfold in_bari, f_ge, f_le. split.
  - intros H. destruct (r !! lat_col) as [lat|]; [|discriminate].
    destruct (r !! lon_col) as [lon|]; [|rewrite !andb_false_r in H; discriminate].
    apply andb_true_iff in H as [H H4]. apply andb_true_iff in H as [H H3].
    apply andb_true_iff in H as [H1 H2].
    exists lat, lon. rewrite <- !Qle_bool_iff. auto.
  - intros (lat & lon & -> & -> & [H1 H2] & [H3 H4]).
    rewrite <- Qle_bool_iff in H1, H2, H3, H4. now rewrite H1, H2, H3, H4.
Qed.

Lemma df_bari_cells lat_col lon_col rs :
  Forall (λ r : gmap string Q, is_Some (r !! lat_col) ∧ is_Some (r !! lon_col))
    (df_bari lat_col lon_col rs).
Proof.
  apply Forall_forall. intros r Hr. apply list_elem_of_filter in Hr as [Hr _].
  apply in_bari_spec in Hr as (lat & lon & -> & -> & _). eauto.
Qed.

(** On located points the key is the one of the specification. *)
Lemma grid_key_finite lat lon :
  grid_key (Some lat) (Some lon) =
  Ok (repr (py_round (fmul (of_int (Qfloor (fdiv lat GRID_LAT))) GRID_LAT) 4)
      +:+ "," +:+
      repr (py_round (fmul (of_int (Qfloor (fdiv lon GRID_LON))) GRID_LON) 4)).
Proof. reflexivity. Qed.


End Incidents.

(** ** Streets *)

Section Streets.

Lemma value_counts_lookup col (rs : list (gmap string string)) s :
  value_counts col rs !! s =
  match length (filter (λ r, r !! col = Some s) rs) with
  | O => None
  | n => Some (Z.of_nat n)
  end.
Proof.
  induction rs as [|r rs IH]; [reflexivity|].
  cbn [value_counts foldr]. fold (value_counts col rs).
  destruct (r !! col) as [s'|] eqn:E.
  - destruct (decide (s' = s)) as [->|Hne].
    + rewrite lookup_insert_eq, filter_cons_True by exact E.
      rewrite IH. cbn [length].
      destruct (length (filter _ rs)); cbn -[Z.of_nat Z.add]; f_equal; lia.
    + rewrite lookup_insert_ne by exact Hne.
      rewrite filter_cons_False by congruence. exact IH.
  - rewrite filter_cons_False by congruence. exact IH.
Qed.

End Streets.

(** ** The run as a whole *)

Section Main.

(** A run completes exactly when a quartiere column, a latitude column, a
    longitude column and a street column are found and the grid is not
    empty; the document is then the one assembled from the stages. *)
Lemma main_ok df df_2023 df_2017 run :
  main df df_2023 df_2017 = Ok run ↔
  ∃ q lat_col lon_col grid street_col,
    q_col (columns df) = Some q ∧
    first (resolve (contains "latit") (columns df_2023)) = Ok lat_col ∧
    first (resolve (contains "longit") (columns df_2023)) = Ok lon_col ∧
    count_cells lat_col lon_col (df_bari lat_col lon_col (rows df_2023)) ∅ = Ok grid ∧
    grid ≠ ∅ ∧
    first (resolve (contains "denominaz") (columns df_2017)) = Ok street_col ∧
    run = {| output :=
               {| neighborhoodScores := neighborhood_scores df q;
                  incidentGrid := grid;
                  gridConfig := {[ "latStep" := GRID_LAT; "lonStep" := GRID_LON ]};
                  dangerousStreets := street_danger (value_counts street_col (rows df_2017));
                  incidentPoints2023 :=
                    take 500 (incident_points lat_col lon_col
                                (df_bari lat_col lon_col (rows df_2023))) |};
             printed_unsafe_places := unsafe_places df |}.
Proof.
  unfold main, check_max. split.
  - intros H.
    destruct (q_col (columns df)) as [q|]; [|discriminate].
    destruct (first (resolve (contains "latit") _)) as [lat_col|]; [|discriminate].
    destruct (first (resolve (contains "longit") _)) as [lon_col|]; [|discriminate].
    cbn in H.
    destruct (count_cells lat_col lon_col _ ∅) as [grid|] eqn:Eg; [|discriminate].
    cbn in H. destruct (decide (grid = ∅)) as [|Hne]; [discriminate|].
    cbn in H.
    destruct (first (resolve (contains "denominaz") _)) as [street_col|]; [|discriminate].
    cbn in H. inversion H. exists q, lat_col, lon_col, grid, street_col.
    repeat split; try reflexivity; assumption.
  - intros (q & lat_col & lon_col & grid & street_col & -> & -> & -> & Hg & Hne & -> & ->).
    cbn. rewrite Hg. cbn. destruct (decide (grid = ∅)); [contradiction|]. reflexivity.
Qed.

End Main.

(** ** Columns that the scores do not read *)

Section Independence.
Context (cs : list string).









End Independence.

(** ** The rounding function and the hardware *)

(** On the constants and operations of the script, rounding the exact
    result gives the value that binary64 hardware arithmetic gives. *)
Section Hardware.
Set Warnings "-inexact-float".

Example literals_agree :
  Prim2Q 0.003%float = Some (lit 0.003%Q) ∧ Prim2Q 0.004%float = Some (lit 0.004%Q) ∧
  Prim2Q 41.02%float = Some (lit 41.02%Q) ∧ Prim2Q 41.17%float = Some (lit 41.17%Q) ∧
  Prim2Q 16.72%float = Some (lit 16.72%Q) ∧ Prim2Q 17.08%float = Some (lit 17.08%Q) ∧
  Prim2Q 0.7%float = Some (lit 0.7%Q) ∧ Prim2Q 0.3%float = Some (lit 0.3%Q) ∧
  Prim2Q 0.25%float = Some (lit 0.25%Q) ∧ Prim2Q 0.15%float = Some (lit 0.15%Q) ∧
  Prim2Q 0.1%float = Some (lit 0.10%Q).
Proof. repeat split; vm_compute; reflexivity. Qed.

Example division_agrees :
  Prim2Q (41.16 / 0.003)%float = Some (fdiv (lit 41.16%Q) (lit 0.003%Q)) ∧
  Prim2Q (41.1 / 0.003)%float = Some (fdiv (lit 41.1%Q) (lit 0.003%Q)) ∧
  Prim2Q (17.08 / 0.004)%float = Some (fdiv (lit 17.08%Q) (lit 0.004%Q)) ∧
  Prim2Q (2 / 3)%float = Some (fdiv 2%Q 3%Q).
Proof. repeat split; vm_compute; reflexivity. Qed.

Example product_and_sum_agree :
  Prim2Q (13719 * 0.003)%float = Some (fmul (of_int 13719) (lit 0.003%Q)) ∧
  Prim2Q (0.667 * 0.25)%float = Some (fmul (lit 0.667%Q) (lit 0.25%Q)) ∧
  Prim2Q (0.7 + 0.3)%float = Some (fadd (lit 0.7%Q) (lit 0.3%Q)) ∧
  Prim2Q (0.1 + 0.2)%float = Some (fadd (lit 0.1%Q) (lit 0.2%Q)) ∧
  Prim2Q (0.65 + 0.15)%float = Some (fadd (lit 0.65%Q) (lit 0.15%Q)).
Proof. repeat split; vm_compute; reflexivity. Qed.

(** [round] and [repr] on values of the script. *)
Example round_and_repr :
  py_round (fdiv 2%Q 3%Q) 3 = lit 0.667%Q ∧
  py_round (lit 2.675%Q) 2 = lit 2.67%Q ∧
  py_round (lit 0.125%Q) 2 = lit 0.12%Q ∧
  py_round (lit 41.0505%Q) 5 = lit 41.0505%Q ∧
  repr (lit 41.157%Q) = "41.157" ∧ repr (lit 16.8%Q) = "16.8" ∧
  repr (lit 41%Q) = "41.0" ∧ repr (fadd (lit 0.1%Q) (lit 0.2%Q)) = "0.30000000000000004" ∧
  repr (lit 0.00001%Q) = "1e-05" ∧ repr (lit (-2.5)%Q) = "-2.5".
Proof. repeat split; vm_compute; reflexivity. Qed.

End Hardware.

(** * The claims of the specification *)

(** Three ways to read a computed boolean. *)
Lemma is_ok_true {A : Type} (r : result A) : is_ok r = true → ∃ a, r = Ok a.
Proof. destruct r as [a|e]; [eauto | discriminate]. Qed.

Lemma isna_false {A : Type} (x : option A) : isna x = false → is_Some x.
Proof. destruct x; [eauto | discriminate]. Qed.




(** C2.  The grid key of a located point is ["<glat>,<glon>"] with
    [glat = round(floor(lat/0.003)*0.003, 4)] and
    [glon = round(floor(lon/0.004)*0.004, 4)], a function of the point.
    A point on a cell boundary should fall into the cell that starts
    there.  It does at latitude 41.10, the example of the specification.
    It does not at latitude 41.16: that value is the label of the cell
    number 13720, the key of the points just above it, yet the quotient
    [41.16 / 0.003] computed in binary64 is 13719.999999999998, whose floor
    is 13719, and the point gets the key of the preceding cell, 41.157. *)
Theorem C2_grid_key_boundary :
  (∀ lat lon, grid_key (Some lat) (Some lon) =
     Ok (repr (py_round (fmul (of_int (Qfloor (fdiv lat GRID_LAT))) GRID_LAT) 4)
         +:+ "," +:+
         repr (py_round (fmul (of_int (Qfloor (fdiv lon GRID_LON))) GRID_LON) 4))) ∧
  grid_key (Some (lit 41.10%Q)) (Some (lit 16.8%Q)) = Ok "41.1,16.8" ∧
  py_round (fmul (of_int 13720) GRID_LAT) 4 = lit 41.16%Q ∧
  grid_key (Some (lit 41.161%Q)) (Some (lit 16.8%Q)) = Ok "41.16,16.8" ∧
  Qfloor (fdiv (lit 41.16%Q) GRID_LAT) = 13719%Z ∧
  grid_key (Some (lit 41.16%Q)) (Some (lit 16.8%Q)) = Ok "41.157,16.8".
Proof.
  split; [intros; apply grid_key_finite|].
  repeat split; vm_compute; reflexivity.
Qed.

(** The same happens on the longitude axis, for instance at 16.74 and at
    the eastern bound 17.08 of the area. *)
Lemma grid_key_boundary_lon :
  grid_key (Some (lit 41.10%Q)) (Some (lit 16.74%Q)) = Ok "41.1,16.736" ∧
  grid_key (Some (lit 41.10%Q)) (Some (lit 17.08%Q)) = Ok "41.1,17.076".
Proof. split; vm_compute; reflexivity. Qed.

(** C4.  The spatial filter keeps exactly the records with latitude in
    [41.02, 41.17] and longitude in [16.72, 17.08], the four bounds
    included, in their order: the point (41.02, 16.72) is kept and the
    point (41.171, 17.08) is not. *)
Theorem C4_bounding_box :
  (∀ lat_col lon_col rs (r : gmap string Q),
     r ∈ df_bari lat_col lon_col rs ↔
     r ∈ rs ∧
     ∃ lat lon, r !! lat_col = Some lat ∧ r !! lon_col = Some lon ∧
                (lit 41.02 <= lat ∧ lat <= lit 41.17)%Q ∧
                (lit 16.72 <= lon ∧ lon <= lit 17.08)%Q) ∧
  (∀ lat_col lon_col rs, df_bari lat_col lon_col rs `sublist_of` rs) ∧
  in_bari "lat" "lon" {[ "lat" := lit 41.02%Q; "lon" := lit 16.72%Q ]} = true ∧
  in_bari "lat" "lon" {[ "lat" := lit 41.17%Q; "lon" := lit 17.08%Q ]} = true ∧
  in_bari "lat" "lon" {[ "lat" := lit 41.171%Q; "lon" := lit 17.08%Q ]} = false.
Proof.
  split; [|split; [|repeat split; vm_compute; reflexivity]].
  - intros lat_col lon_col rs r. unfold df_bari.
    rewrite list_elem_of_filter, in_bari_spec. tauto.
  - intros lat_col lon_col rs. apply sublist_filter.
Qed.

(** A boundary latitude of the area that is not binned into the cell it
    starts. *)
Lemma boundary_outside_its_cell :
  ∃ k : Z,
    let lat := py_round (fmul (of_int k) GRID_LAT) 4 in
    f_ge (Some lat) (lit 41.02%Q) && f_le (Some lat) (lit 41.17%Q) = true ∧
    grid_coord (Some lat) GRID_LAT ≠ Ok lat.
Proof.
  exists 13720%Z. split; [vm_compute; reflexivity|].
  vm_compute. intros E. inversion E.
Qed.

(** C3.  When no value of a column is mappable (every cell is missing or
    no key of the table) the rate or intensity of the field is exactly
    0.0, in the function and in the emitted dictionary; and no NaN reaches
    the output document: no entry of a neighborhood and no coordinate of
    an incident point is NaN. *)
Theorem C3_no_mappable_value :
  (∀ (d : gmap string Q) group col,
     (∀ c, c ∈ column group col → c ≫= (d !!.) = None) →
     rate d group col = Some 0%Q) ∧
  (∀ cols group name token col rest,
     (name, token) ∈ problems →
     (resolve (contains token) (problem_cols_yes cols) = col :: rest →
      (∀ c, c ∈ column group col → c ≫= (yes_map !!.) = None) →
      group_scores (key_problems cols) (key_intensity cols) group !! (name +:+ "_rate")
      = Some (Float (Some 0%Q))) ∧
     (resolve (contains token) (problem_cols_intensity cols) = col :: rest →
      (∀ c, c ∈ column group col → c ≫= (intensity_map !!.) = None) →
      group_scores (key_problems cols) (key_intensity cols) group !! (name +:+ "_intensity")
      = Some (Float (Some 0%Q)))) ∧
  (∀ df df_2023 df_2017 run,
     main df df_2023 df_2017 = Ok run →
     (∀ label scores, neighborhoodScores (output run) !! label = Some scores →
                      map_Forall (λ _, not_nan) scores) ∧
     Forall (λ p, p.1 ≠ NaN ∧ p.2 ≠ NaN) (incidentPoints2023 (output run))).
Proof.
  assert (R : ∀ (d : gmap string Q) group col,
             (∀ c, c ∈ column group col → c ≫= (d !!.) = None) →
             rate d group col = Some 0%Q).
  { intros d group col H. rewrite rate_mapped, (mapped_values_nil _ _ H). reflexivity. }
  split; [exact R|]. split.
  - intros cols group name token col rest Hin. split; intros E H.
    + rewrite (emitted_rate _ _ _ _ Hin), E. now rewrite (R _ _ _ H).
    + rewrite (emitted_intensity _ _ _ _ Hin), E. now rewrite (R _ _ _ H).
  - intros df df_2023 df_2017 run H.
    apply main_ok in H as (q & lat_col & lon_col & grid & street_col & _ & _ & _ & _ & _ & _ & ->).
    cbn [output neighborhoodScores incidentPoints2023]. split.
    + intros label scores Hl. unfold neighborhood_scores in Hl.
      rewrite lookup_fmap in Hl. destruct (groupby q (rows df) !! label); [|discriminate].
      inversion Hl. apply group_scores_not_nan.
    + apply Forall_take. unfold incident_points. apply Forall_fmap.
      eapply Forall_impl; [apply df_bari_cells|].
      intros r [[lat Hlat] [lon Hlon]]. cbn. rewrite Hlat, Hlon. split; discriminate.
Qed.

(** A neighborhood whose only answer is outside the table, and a complete
    run on a survey with gaps. *)
Lemma C3_no_mappable_value_witness :
  rate yes_map (take 1 (rows survey_gaps)) "problemiquartiere_spaccio_scala_1" = Some 0%Q ∧
  group_scores (key_problems (columns survey_gaps)) (key_intensity (columns survey_gaps))
    (take 1 (rows survey_gaps)) !! "spaccio_intensity" = Some (Float (Some 0%Q)) ∧
  ∃ run, main survey_gaps incidents_2 streets_3 = Ok run ∧
         Forall (λ p, p.1 ≠ NaN ∧ p.2 ≠ NaN) (incidentPoints2023 (output run)).
Proof.
  split; [|split].
  - apply (proj1 C3_no_mappable_value).
    intros c Hc. apply list_elem_of_In in Hc. vm_compute in Hc.
    destruct Hc as [<-|[]]. vm_compute. reflexivity.
  - refine (proj2 (proj1 (proj2 C3_no_mappable_value) (columns survey_gaps)
              (take 1 (rows survey_gaps)) "spaccio" "spaccio"
              "problemiquartiere_spaccio_scala_2" [] _) _ _).
    + apply list_elem_of_here.
    + vm_compute. reflexivity.
    + intros c Hc. apply list_elem_of_In in Hc. vm_compute in Hc.
      destruct Hc as [<-|[]]. reflexivity.
  - destruct (is_ok_true (main survey_gaps incidents_2 streets_3)) as [run E];
      [vm_compute; reflexivity|].
    exists run. split; [exact E|].
    exact (proj2 (proj2 (proj2 C3_no_mappable_value) _ _ _ run E)).
Defined.



(** C6.  [dangerousStreets] holds exactly the street names that occur at
    least twice, each with its number of occurrences; a missing name is
    never a key.  A street that occurs twice is in, one that occurs once
    is out. *)
Theorem C6_dangerous_streets :
  (∀ col (rs : list (gmap string string)) s n,
     street_danger (value_counts col rs) !! s = Some n ↔
     n = Z.of_nat (length (filter (λ r, r !! col = Some s) rs)) ∧ (2 ≤ n)%Z) ∧
  street_danger (value_counts "denominazione_strada" (rows streets_3))
  = {[ "Via A" := 2%Z ]}.
Proof.
  split.
  - intros col rs s n. unfold street_danger.
    rewrite map_lookup_filter_Some, value_counts_lookup. cbn [fst snd isna].
    destruct (length (filter _ rs)) as [|m] eqn:E.
    + split; [intros [? _]; discriminate | intros [-> ?]; lia].
    + split.
      * intros [H1 [H2 _]]. inversion H1. subst n. split; [reflexivity | exact H2].
      * intros [-> H2]. split; [reflexivity | split; [exact H2 | reflexivity]].
  - vm_compute. reflexivity.
Qed.





(** C9.  A row without a neighborhood label is in no group: the [count]
    of a neighborhood is the number of rows that carry its label, the
    counts add up to the number of labelled rows, and that number can be
    smaller than the number of rows. *)
Theorem C9_missing_neighborhood :
  (∀ (df : DataFrame string) q,
     (∀ label scores,
        neighborhood_scores df q !! label = Some scores →
        count_of scores = Z.of_nat (length (filter (λ r, r !! q = Some label) (rows df)))) ∧
     total_count (neighborhood_scores df q)
     = Z.of_nat (length (filter (λ r, is_Some (r !! q)) (rows df))) ∧
     (total_count (neighborhood_scores df q) ≤ Z.of_nat (length (rows df)))%Z) ∧
  (total_count (neighborhood_scores survey_gaps "quartiere_abita") = 2%Z ∧
   length (rows survey_gaps) = 3).
Proof.
  split; [|split; [vm_compute; reflexivity | reflexivity]].
  intros df q.
  assert (T : total_count (neighborhood_scores df q)
              = Z.of_nat (length (filter (λ r, is_Some (r !! q)) (rows df)))).
  { unfold total_count, neighborhood_scores. rewrite map_fold_fmap.
    apply (groupby_total
             (λ g, count_of (group_scores (key_problems (columns df))
                               (key_intensity (columns df)) g))).
    intros g. unfold count_of. now rewrite emitted_count. }
  split; [|split; [exact T|]].
  - intros label scores H. unfold neighborhood_scores in H.
    rewrite lookup_fmap, groupby_lookup in H.
    destruct (filter (λ r, r !! q = Some label) (rows df)) as [|r g] eqn:E; [discriminate|].
    inversion H. unfold count_of. now rewrite emitted_count.
  - rewrite T. apply inj_le, length_filter.
Qed.

(** The survey with gaps: its second respondent gave no neighborhood and
    is counted nowhere. *)
Lemma C9_missing_neighborhood_witness :
  ∃ scores, neighborhood_scores survey_gaps "quartiere_abita" !! "A" = Some scores ∧
            count_of scores = 1%Z.
Proof.
  destruct (isna_false (neighborhood_scores survey_gaps "quartiere_abita" !! "A"))
    as [scores E]; [vm_compute; reflexivity|].
  exists scores. split; [exact E|].
  rewrite (proj1 (proj1 C9_missing_neighborhood survey_gaps "quartiere_abita") "A" scores E).
  vm_compute. reflexivity.
Defined.





(** * The scenarios of the specification *)

(** Three respondents of neighborhood A, two of them answering Sì on
    spaccio: the rate is 0.667 and the risk score 0.167.  Two incidents at
    (41.050, 16.800) and (41.0505, 16.8005) share one cell, whose count is
    2.  Of the streets Via A, Via A, Via B only Via A is dangerous. *)
Example scenarios :
  ∃ run scores,
    main survey_A incidents_2 streets_3 = Ok run ∧
    neighborhoodScores (output run) !! "A" = Some scores ∧
    scores !! "spaccio_rate" = Some (Float (Some (lit 0.667%Q))) ∧
    scores !! "risk_score" = Some (Float (Some (lit 0.167%Q))) ∧
    scores !! "count" = Some (Int 3) ∧
    incidentGrid (output run) = {[ "41.049,16.8" := 2%Z ]} ∧
    dangerousStreets (output run) = {[ "Via A" := 2%Z ]}.
Proof.
  destruct (is_ok_true (main survey_A incidents_2 streets_3)) as [run E];
    [vm_compute; reflexivity|].
  pose proof E as E'.
  apply main_ok in E' as (q & lat & lon & grid & street & Hq & Hlat & Hlon & Hg & _ & Hs & ->).
  vm_compute in Hq, Hlat, Hlon, Hs.
  inversion Hq; inversion Hlat; inversion Hlon; inversion Hs; subst.
  destruct (isna_false (neighborhood_scores survey_A "quartiere_abita" !! "A")) as [scores Es];
    [vm_compute; reflexivity|].
  eexists; exists scores. split; [exact E|]. split; [exact Es|].
  cbn [output neighborhoodScores incidentGrid dangerousStreets].
  unfold neighborhood_scores in Es. rewrite lookup_fmap, groupby_lookup in Es.
  replace (filter (λ r, r !! "quartiere_abita" = Some "A") (rows survey_A))
    with (rows survey_A) in Es by (vm_compute; reflexivity).
  inversion Es. subst scores.
  repeat split; try (vm_compute; reflexivity).
  assert (Eg : count_cells "latitudine" "longitudine"
                 (df_bari "latitudine" "longitudine" (rows incidents_2)) ∅
               = Ok {[ "41.049,16.8" := 2%Z ]}) by (vm_compute; reflexivity).
  rewrite Eg in Hg. now inversion Hg.
Qed.

(** * Further properties of the script *)

(** ** More on rounding: equal values, whole numbers *)

Module B64More.
Import B64 B64Facts.
Local Open Scope Q_scope.




Lemma RN_canon x : Qred (RN x) = RN x.
Proof. unfold RN. destruct (Qeq_bool x 0); [reflexivity | apply Qcanon.Qred_involutive]. Qed.

Lemma RN_eq x y : RN x == y → Qred y = y → RN x = y.
Proof. intros E Hy. rewrite <- (RN_canon x), <- Hy. now apply Qred_complete. Qed.

Lemma Qred_inject_Z n : Qred (inject_Z n) = inject_Z n.
Proof. apply Qcanon.Qred_identity. cbn. apply Z.gcd_1_r. Qed.

Lemma rnd_at_int e n : (e <= 0)%Z → rnd_at e (inject_Z n) == inject_Z n.
Proof.
  intros He. unfold rnd_at.
  assert (E : inject_Z n / pow2 e == inject_Z (n * 2 ^ (- e))).
  { rewrite inject_Z_mult, <- pow2_Z by lia.
    replace e with (- - e)%Z at 1 by lia. unfold pow2 at 1. rewrite Qpower_opp.
    fold (pow2 (- e)). field. apply Qnot_eq_sym, Qlt_not_eq, pow2_pos. }
  rewrite (rne_comp _ _ E), rne_Z, inject_Z_mult, <- pow2_Z by lia.
  rewrite <- Qmult_assoc, <- pow2_add. replace (- e + e)%Z with 0%Z by lia.
  unfold pow2. cbn. ring.
Qed.

Lemma rnd_at_comp e x y : x == y → rnd_at e x == rnd_at e y.
Proof.
  intros E. unfold rnd_at.
  assert (Ed : x / pow2 e == y / pow2 e) by (apply Qdiv_comp; [exact E | reflexivity]).
  now rewrite (rne_comp _ _ Ed).
Qed.

(** The whole numbers up to 2^53 are binary64 values. *)
Lemma RN_int n : (0 <= n <= 2 ^ 53)%Z → RN (inject_Z n) = inject_Z n.
Proof.
  intros [H0 H1]. apply RN_eq; [|apply Qred_inject_Z].
  destruct (Z.eq_dec n 0%Z) as [->|Hn]; [reflexivity|].
  assert (Hp : 0 < inject_Z n).
  { change 0 with (inject_Z 0). rewrite <- Zlt_Qlt. lia. }
  rewrite (RN_pos _ Hp).
  destruct (ilog2_spec _ Hp) as [S1 S2].
  assert (K0 : (0 <= ilog2 (inject_Z n))%Z).
  { change 0%Z with (ilog2 1). apply ilog2_mono; [reflexivity|].
    change 1 with (inject_Z 1). rewrite <- Zle_Qle. lia. }
  assert (K1 : (ilog2 (inject_Z n) < 54)%Z).
  { apply pow2_lt_inv. eapply Qle_lt_trans; [exact S1|].
    rewrite (pow2_Z 54) by lia. rewrite <- Zlt_Qlt. lia. }
  unfold ulp_exp, emin.
  destruct (Z.eq_dec (ilog2 (inject_Z n)) 53%Z) as [E|NE].
  - rewrite E in *. rewrite (pow2_Z 53) in S1 by lia. rewrite <- Zle_Qle in S1.
    assert (n = 2 ^ 53)%Z as -> by lia.
    replace (Z.max (53 - 52) (-1074)) with 1%Z by reflexivity.
    assert (P : inject_Z (2 ^ 53) == pow2 53) by (symmetry; apply pow2_Z; lia).
    rewrite (rnd_at_comp 1 _ _ P). rewrite P. apply rnd_at_pow2. lia.
  - apply rnd_at_int. lia.
Qed.

End B64More.

(** ** The column resolver *)

Section Resolver.

Lemma append_cons x (a b : string) : String x a +:+ b = String x (a +:+ b).
Proof. reflexivity. Qed.

Lemma append_empty (b : string) : EmptyString +:+ b = b.
Proof. reflexivity. Qed.

Lemma append_assoc (a b c : string) : (a +:+ b) +:+ c = a +:+ (b +:+ c).
Proof.
  induction a as [|x a IH]; [reflexivity|].
  rewrite !append_cons. f_equal. exact IH.
Qed.

Lemma prefix_app s post : String.prefix s (s +:+ post) = true.
Proof.
  induction s as [|a s IH]; [destruct post; reflexivity|].
  rewrite append_cons. cbn. destruct (Ascii.ascii_dec a a); [exact IH | contradiction].
Qed.

Lemma prefix_inv s t : String.prefix s t = true → ∃ post, t = s +:+ post.
Proof.
  revert t. induction s as [|a s IH]; intros t H.
  - exists t. reflexivity.
  - destruct t as [|b t]; [discriminate|]. cbn in H.
    destruct (Ascii.ascii_dec a b) as [->|]; [|discriminate].
    destruct (IH t H) as [post ->]. exists post. reflexivity.
Qed.

(** The substring test holds exactly when the token occurs in the name. *)
Lemma contains_spec needle hay :
  contains needle hay = true ↔ ∃ pre post, hay = pre +:+ needle +:+ post.
Proof.
  induction hay as [|a hay IH].
  - cbn [contains]. rewrite orb_false_r. split.
    + intros H. apply prefix_inv in H as [post H]. exists EmptyString, post. exact H.
    + intros (pre & post & H). destruct pre; [|discriminate].
      destruct needle; [reflexivity | discriminate].
  - cbn [contains]. rewrite orb_true_iff, IH. split.
    + intros [H | (pre & post & ->)].
      * apply prefix_inv in H as [post H]. exists EmptyString, post. exact H.
      * exists (String a pre), post. reflexivity.
    + intros (pre & post & H). destruct pre as [|b pre].
      * left. rewrite append_empty in H. rewrite H. apply prefix_app.
      * right. rewrite append_cons in H. inversion H. eauto.
Qed.

Lemma contains_trans a b c :
  contains a b = true → contains b c = true → contains a c = true.
Proof.
  rewrite !contains_spec. intros (p1 & q1 & ->) (p2 & q2 & ->).
  exists (p2 +:+ p1), (q1 +:+ q2). now rewrite !append_assoc.
Qed.



Lemma primary_quartiere c : primary c = true → contains "quartiere" (lower c) = true.
Proof.
  unfold primary. intros H. apply orb_true_iff in H as [H | H];
    (eapply contains_trans; [|exact H]); reflexivity.
Qed.

Lemma filter_nil_iff {A : Type} (P : A → Prop) `{∀ x, Decision (P x)} (l : list A) :
  filter P l = [] ↔ ∀ x, x ∈ l → ¬ P x.
Proof.
  split.
  - intros E x Hx Px. exact (filter_nil_not_elem_of P l x E Px Hx).
  - intros Hn. destruct (filter P l) as [|x l'] eqn:E; [reflexivity|].
    assert (Hx : x ∈ filter P l) by (rewrite E; apply list_elem_of_here).
    apply list_elem_of_filter in Hx as [Px Hx]. now destruct (Hn x Hx).
Qed.

End Resolver.



(** X2.  The quartiere column is a column of the table whose name
    mentions quartiere; a column that mentions quartiere_abita or
    quale_quartiere is preferred to one that only mentions quartiere, even
    when it comes later; and no column is found exactly when no name
    mentions quartiere.  A problem column mentions quartiere too: a survey
    with a problem column always has a quartiere column, and without a
    better match the rows are grouped by the first such column. *)
Theorem X2_q_col (cols : list string) :
  (q_col cols = None ↔ ∀ c, c ∈ cols → contains "quartiere" (lower c) = false) ∧
  (∀ q, q_col cols = Some q → q ∈ cols ∧ contains "quartiere" (lower q) = true) ∧
  (∀ q, q_col cols = Some q → (∃ c, c ∈ cols ∧ primary c = true) → primary q = true) ∧
  (∀ c, c ∈ problem_cols_yes cols ∨ c ∈ problem_cols_intensity cols →
        is_Some (q_col cols)) ∧
  q_col ["Quartiere_note"; "In_quale_QUARTIERE_vive"] = Some "In_quale_QUARTIERE_vive" ∧
  q_col ["zona"; "problemiquartiere_spaccio_scala_1"]
  = Some "problemiquartiere_spaccio_scala_1".
Proof.
  assert (Q : ∀ q, q_col cols = Some q →
              q ∈ cols ∧ contains "quartiere" (lower q) = true ∧
              ((∃ c, c ∈ cols ∧ primary c = true) → primary q = true)).
  { intros q. unfold q_col.
    destruct (quartiere_col cols) as [|c rest] eqn:E.
    - intros H. apply head_Some_elem_of, list_elem_of_filter in H as [H1 H2].
      split; [exact H2|]. split; [exact H1|].
      intros (c & Hc & Pc). exfalso.
      unfold quartiere_col, resolve in E.
      apply (filter_nil_not_elem_of _ _ c E); [exact Pc | exact Hc].
    - intros H. inversion H. subst c.
      assert (Hq : q ∈ quartiere_col cols) by (rewrite E; apply list_elem_of_here).
      unfold quartiere_col, resolve in Hq. apply list_elem_of_filter in Hq as [H1 H2].
      split; [exact H2|]. split; [now apply primary_quartiere | intros _; exact H1]. }
  assert (N : q_col cols = None → ∀ c, c ∈ cols → contains "quartiere" (lower c) = false).
  { intros HN c Hc. destruct (contains "quartiere" (lower c)) eqn:E; [|reflexivity].
    exfalso. unfold q_col in HN.
    destruct (quartiere_col cols); [|discriminate].
    apply head_None in HN. unfold resolve in HN.
    apply (filter_nil_not_elem_of _ _ c HN); [exact E | exact Hc]. }
  split; [|split; [|split; [|split; [|split]]]].
  - split; [exact N|].
    intros HF. destruct (q_col cols) as [q|] eqn:E; [|reflexivity].
    destruct (Q q eq_refl) as (Hq & Hc & _). rewrite (HF q Hq) in Hc. discriminate.
  - intros q H. destruct (Q q H) as (? & ? & _). auto.
  - intros q H. destruct (Q q H) as (_ & _ & ?). auto.
  - intros c Hc. destruct (q_col cols) as [q|] eqn:E; [eauto|]. exfalso.
    assert (Hp : c ∈ cols ∧ contains "problemiquartiere" (lower c) = true).
    { unfold problem_cols_yes, problem_cols_intensity, resolve in Hc.
      destruct Hc as [Hc|Hc]; apply list_elem_of_filter in Hc as [Hc ?];
        apply andb_true_iff in Hc as [Hc _]; auto. }
    destruct Hp as [Hin Hp].
    assert (Hq : contains "quartiere" (lower c) = true).
    { eapply contains_trans; [|exact Hp]. reflexivity. }
    rewrite (N eq_refl c Hin) in Hq. discriminate.
  - vm_compute. reflexivity.
  - vm_compute. reflexivity.
Qed.

(** A table with a bare quartiere column before the preferred one. *)
Lemma X2_q_col_witness :
  primary "In_quale_QUARTIERE_vive" = true ∧
  contains "quartiere" (lower "In_quale_QUARTIERE_vive") = true.
Proof.
  pose proof (proj1 (proj2 (X2_q_col ["Quartiere_note"; "In_quale_QUARTIERE_vive"]))
                "In_quale_QUARTIERE_vive") as H1.
  pose proof (proj1 (proj2 (proj2 (X2_q_col ["Quartiere_note"; "In_quale_QUARTIERE_vive"])))
                "In_quale_QUARTIERE_vive") as H2.
  split.
  - apply H2; [vm_compute; reflexivity|].
    exists "In_quale_QUARTIERE_vive". split; [|vm_compute; reflexivity].
    apply list_elem_of_further, list_elem_of_here.
  - apply H1. vm_compute. reflexivity.
Defined.

(** ** Rates between 0 and 1 *)

Section UnitRange.
Local Open Scope Q_scope.
Import B64Facts B64More.

Lemma RN_1 : B64.RN 1 = 1.
Proof. reflexivity. Qed.

Lemma RN_past_2_53 : B64.RN (inject_Z (2 ^ 53 + 1)) <= inject_Z (2 ^ 53).
Proof. apply Qle_bool_iff. vm_compute. reflexivity. Qed.

(** Adding values between 0 and 1: the sum never exceeds the number of
    values, nor 2^53, where adding 1 no longer changes a float. *)
Lemma sum_bound vs :
  Forall (λ v, 0 <= v ∧ v <= 1) vs →
  ∀ acc a, (0 <= a <= 2 ^ 53)%Z → 0 <= acc → acc <= inject_Z a →
  0 <= foldl fadd acc vs ∧
  foldl fadd acc vs <= inject_Z (Z.min (a + Z.of_nat (length vs)) (2 ^ 53)).
Proof.
  induction 1 as [|v vs [Hv0 Hv1] _ IH]; intros acc a Ha H0 H1.
  - cbn [foldl length]. split; [exact H0|].
    replace (Z.min (a + Z.of_nat 0) (2 ^ 53)) with a by lia. exact H1.
  - cbn [foldl length].
    assert (B : fadd acc v <= inject_Z (Z.min (a + 1) (2 ^ 53))).
    { unfold fadd. apply Qle_trans with (B64.RN (inject_Z (a + 1))).
      - apply RN_mono; [lra|]. rewrite inject_Z_plus. change (inject_Z 1) with 1. lra.
      - destruct (Z_le_gt_dec (a + 1) (2 ^ 53)) as [L|G].
        + rewrite RN_int by lia. rewrite <- Zle_Qle. lia.
        + assert (a = 2 ^ 53)%Z as -> by lia.
          replace (Z.min (2 ^ 53 + 1) (2 ^ 53)) with (2 ^ 53)%Z by lia.
          apply RN_past_2_53. }
    destruct (IH (fadd acc v) (Z.min (a + 1) (2 ^ 53))) as [I0 I1];
      [lia | apply fadd_nonneg; assumption | exact B |].
    split; [exact I0|]. eapply Qle_trans; [exact I1|].
    rewrite <- Zle_Qle. lia.
Qed.

Lemma of_int_lower n : (1 <= n)%Z → inject_Z (Z.min n (2 ^ 53)) <= of_int n.
Proof.
  intros Hn. unfold of_int. destruct (Z_le_gt_dec n (2 ^ 53)) as [L|G].
  - rewrite RN_int by lia. rewrite <- Zle_Qle. lia.
  - replace (Z.min n (2 ^ 53)) with (2 ^ 53)%Z by lia.
    rewrite <- (RN_int (2 ^ 53)) at 1 by lia.
    apply RN_mono; [discriminate|]. rewrite <- Zle_Qle. lia.
Qed.

Lemma mean_unit vs :
  vs ≠ [] → Forall (λ v, 0 <= v ∧ v <= 1) vs →
  0 <= arithmetic_mean vs ∧ arithmetic_mean vs <= 1.
Proof.
  intros Hne Hvs. unfold arithmetic_mean.
  destruct (sum_bound vs Hvs 0 0%Z) as [S0 S1]; [lia | apply Qle_refl | apply Qle_refl |].
  assert (Hn : (1 <= Z.of_nat (length vs))%Z) by (destruct vs; [contradiction | cbn; lia]).
  pose proof (of_int_lower _ Hn) as L.
  assert (Hp : 0 < of_int (Z.of_nat (length vs))).
  { eapply Qlt_le_trans; [|exact L]. change 0 with (inject_Z 0). rewrite <- Zlt_Qlt. lia. }
  rewrite Z.add_0_l in S1.
  unfold fdiv. split.
  - apply RN_nonneg. apply Qle_shift_div_l; [exact Hp|]. lra.
  - rewrite <- RN_1. apply RN_mono.
    + apply Qle_shift_div_l; [exact Hp|]. lra.
    + apply Qle_shift_div_r; [exact Hp|]. lra.
Qed.

Lemma py_round_1 : py_round 1 3 <= 1.
Proof. apply Qle_bool_iff. vm_compute. reflexivity. Qed.

(** A table with values between 0 and 1 gives rates between 0 and 1. *)
Lemma rate_unit (d : gmap string Q) group col :
  (∀ s v, d !! s = Some v → 0 <= v ∧ v <= 1) →
  ∃ v, rate d group col = Some v ∧ (0 <= v ∧ v <= 1).
Proof.
  intros Hd. rewrite rate_mapped.
  assert (F : Forall (λ v, 0 <= v ∧ v <= 1) (mapped_values d (column group col))).
  { apply Forall_forall. intros v Hv. unfold mapped_values in Hv.
    apply list_elem_of_omap in Hv as (c & _ & Hc).
    destruct c as [s|]; [|discriminate]. exact (Hd s v Hc). }
  destruct (mapped_values d (column group col)) as [|v vs] eqn:E.
  - exists 0. split; [reflexivity|]. split; [apply Qle_refl | discriminate].
  - destruct (mean_unit (v :: vs)) as [M0 M1]; [discriminate | exact F |].
    eexists. split; [reflexivity|]. split.
    + now apply py_round_nonneg.
    + eapply Qle_trans; [apply py_round_mono; eassumption | apply py_round_1].
Qed.

Lemma yes_map_unit s v : yes_map !! s = Some v → 0 <= v ∧ v <= 1.
Proof.
  unfold yes_map. rewrite !lookup_insert, lookup_singleton.
  repeat case_decide; intros E; inversion E; split; discriminate.
Qed.

Lemma intensity_map_unit s v : intensity_map !! s = Some v → 0 <= v ∧ v <= 1.
Proof.
  unfold intensity_map. rewrite !lookup_insert, lookup_singleton.
  repeat case_decide; intros E; inversion E; split; apply Qle_bool_iff; reflexivity.
Qed.

Lemma add_rates_unit d suf key g (sc : gmap string num) :
  (∀ s v, d !! s = Some v → 0 <= v ∧ v <= 1) →
  map_Forall (λ _, unit_entry) sc → map_Forall (λ _, unit_entry) (add_rates d suf key g sc).
Proof.
  intros Hd. revert sc. induction key as [|x key IH]; intros sc H; [exact H|].
  rewrite add_rates_cons. apply IH. destruct (x.2) as [|col ?]; [exact H|].
  apply map_Forall_insert_2; [|exact H].
  destruct (rate_unit d g col Hd) as (v & -> & Hv). exists v. split; [reflexivity | exact Hv].
Qed.

(** X4.  In every emitted dictionary the count is the size of the group
    and every other entry, the rates, the intensities and the risk score,
    is a number between 0 and 1, whatever the answers are. *)
Theorem X4_scores_in_unit_range (kp ki : list (string * list string))
    (g : list (gmap string string)) (k : string) (x : num) :
  group_scores kp ki g !! k = Some x →
  (k = "count" ∧ x = Int (Z.of_nat (length g))) ∨ (k ≠ "count" ∧ unit_entry x).
Proof.
  unfold group_scores.
  set (s2 := add_rates intensity_map "_intensity" ki g (add_rates yes_map "_rate" kp g ∅)).
  assert (H2 : map_Forall (λ _, unit_entry) s2).
  { apply add_rates_unit; [apply intensity_map_unit|].
    apply add_rates_unit; [apply yes_map_unit | apply map_Forall_empty]. }
  destruct (decide (k = "count")) as [->|N1].
  - rewrite lookup_insert_eq. intros E. inversion E. now left.
  - rewrite lookup_insert_ne by congruence. intros H. right. split; [exact N1|].
    destruct (decide (k = "risk_score")) as [->|N2].
    + rewrite lookup_insert_eq in H. inversion H.
      rewrite risk_weighted_sum.
      destruct (weighted_sum_bounds s2) as (v & -> & Hv0 & Hv1).
      { intros k' x' _ Hx'. exact (H2 k' x' Hx'). }
      exists (py_round v 3). split; [reflexivity|]. split.
      * now apply py_round_nonneg.
      * eapply Qle_trans; [apply py_round_mono; eassumption | apply full_sum_rounds_to_1].
    + rewrite lookup_insert_ne in H by congruence. exact (H2 k x H).
Qed.

End UnitRange.

(** The risk score of the first scenario. *)
Lemma X4_scores_in_unit_range_witness :
  unit_entry (Float (Some (lit 0.167%Q))).
Proof.
  destruct (X4_scores_in_unit_range (key_problems (columns survey_A))
              (key_intensity (columns survey_A)) (rows survey_A)
              "risk_score" (Float (Some (lit 0.167%Q)))) as [[E _] | [_ H]].
  - vm_compute. reflexivity.
  - discriminate E.
  - exact H.
Defined.

(** ** The keys of an emitted dictionary *)

Section Keys.



End Keys.


(** ** The yes rate as a fraction *)

Section YesRate.
Local Open Scope Q_scope.
Import B64Facts B64More.







End YesRate.

(** X6.  [neighborhoodScores] has an entry exactly for the labels that at
    least one row carries, spelled as in the table; the group of a label
    lists its rows in file order, and the count of an entry is at least
    1. *)
Theorem X6_neighborhood_keys (df : DataFrame string) (q label : string) :
  (is_Some (neighborhood_scores df q !! label) ↔ ∃ r, r ∈ rows df ∧ r !! q = Some label) ∧
  (∀ g, groupby q (rows df) !! label = Some g →
        g = filter (λ r, r !! q = Some label) (rows df) ∧ g ≠ []) ∧
  (∀ scores, neighborhood_scores df q !! label = Some scores → (1 <= count_of scores)%Z).
Proof.
  unfold neighborhood_scores. rewrite lookup_fmap, groupby_lookup.
  destruct (filter (λ r, r !! q = Some label) (rows df)) as [|r g] eqn:E.
  - split; [|split].
    + split; [intros [? ?]; discriminate|].
      intros (r & Hr & Hl). exfalso.
      exact (filter_nil_not_elem_of _ _ r E Hl Hr).
    + intros g H. discriminate.
    + intros scores H. discriminate.
  - split; [|split].
    + split; [|cbn; eauto]. intros _. exists r.
      assert (Hr : r ∈ filter (λ r, r !! q = Some label) (rows df))
        by (rewrite E; apply list_elem_of_here).
      apply list_elem_of_filter in Hr as [H1 H2]. auto.
    + intros g' H. inversion H. split; [reflexivity | discriminate].
    + intros scores H. cbn in H. inversion H. unfold count_of.
      rewrite emitted_count. cbn [length]. lia.
Qed.

(** Labels that differ in case are different neighborhoods. *)
Lemma X6_neighborhood_keys_witness :
  ∃ r, r ∈ rows survey_gaps ∧ r !! "quartiere_abita" = Some "B".
Proof.
  apply (proj1 (proj1 (X6_neighborhood_keys survey_gaps "quartiere_abita" "B"))).
  apply isna_false. vm_compute. reflexivity.
Defined.

(** ** The grid *)

Section Grid.

Lemma counts_total_insert (m : gmap string Z) k v :
  counts_total (<[k := v]> m) = (v - default 0 (m !! k) + counts_total m)%Z.
Proof.
  unfold counts_total.
  assert (Hc : ∀ (m' : gmap string Z) i x,
             m' !! i = None →
             map_fold (λ _ n acc, n + acc)%Z 0%Z (<[i := x]> m') =
             (x + map_fold (λ _ n acc, n + acc)%Z 0%Z m')%Z).
  { intros m' i x Hi.
    apply (map_fold_insert_L (λ _ n acc, n + acc)%Z); [|exact Hi].
    intros. lia. }
  destruct (m !! k) as [n|] eqn:E.
  - rewrite <- (insert_delete_id m k n E) at 2.
    rewrite <- insert_delete_eq.
    rewrite !Hc by apply lookup_delete_eq. cbn [default]. unfold id. lia.
  - rewrite Hc by exact E. cbn [default]. lia.
Qed.

(** The counting loop adds one incident per row: the total grows by the
    number of rows, counts stay positive, and the keys are the old ones
    and the keys of the rows. *)
Lemma count_cells_total lat_col lon_col rs :
  ∀ (acc m : gmap string Z),
    count_cells lat_col lon_col rs acc = Ok m →
    counts_total m = (counts_total acc + Z.of_nat (length rs))%Z ∧
    (map_Forall (λ _ n, 1 <= n)%Z acc → map_Forall (λ _ n, 1 <= n)%Z m) ∧
    (∀ key, is_Some (m !! key) ↔
            is_Some (acc !! key) ∨
            ∃ r, r ∈ rs ∧ grid_key (r !! lat_col) (r !! lon_col) = Ok key).
Proof.
  induction rs as [|r rs IH]; intros acc m H.
  - cbn in H. inversion H. subst m. split; [cbn; lia|]. split; [auto|].
    intros key. split; [auto|]. intros [?|(r & Hr & _)]; [assumption|].
    now apply elem_of_nil in Hr.
  - cbn [count_cells] in H.
    destruct (grid_key (r !! lat_col) (r !! lon_col)) as [key|e] eqn:Ek; [|discriminate].
    cbn [mbind result_bind bind] in H.
    destruct (IH _ _ H) as (T & P & K). split; [|split].
    + rewrite T, counts_total_insert. cbn [length]. lia.
    + intros Hacc. apply P. apply map_Forall_insert_2; [|exact Hacc].
      destruct (acc !! key) as [n|] eqn:En; cbn [default]; [|lia].
      specialize (Hacc key n En). cbn in Hacc. unfold id. lia.
    + intros key'. rewrite K. split.
      * intros [Hs | (r' & Hr' & Hk')].
        -- destruct (decide (key = key')) as [<-|Hne].
           ++ right. exists r. split; [apply list_elem_of_here | exact Ek].
           ++ rewrite lookup_insert_ne in Hs by exact Hne. now left.
        -- right. exists r'. split; [now apply list_elem_of_further | exact Hk'].
      * intros [Hs | (r' & Hr' & Hk')].
        -- left. destruct (decide (key = key')) as [<-|Hne].
           ++ rewrite lookup_insert_eq. eauto.
           ++ now rewrite lookup_insert_ne by exact Hne.
        -- apply elem_of_cons in Hr' as [->|Hr'].
           ++ left. rewrite Ek in Hk'. inversion Hk'. subst. rewrite lookup_insert_eq. eauto.
           ++ right. eauto.
Qed.

End Grid.

(** X7.  In a completed run every incident kept by the bounding box is
    counted in exactly one cell: the counts of [incidentGrid] add up to
    the number of kept rows, every count is at least 1, every key is the
    key of a kept row and the key of every kept row is present. *)
Theorem X7_grid_counts (df : DataFrame string) (df_2023 : DataFrame Q)
    (df_2017 : DataFrame string) (run : Run) :
  main df df_2023 df_2017 = Ok run →
  ∃ lat_col lon_col,
    first (resolve (contains "latit") (columns df_2023)) = Ok lat_col ∧
    first (resolve (contains "longit") (columns df_2023)) = Ok lon_col ∧
    let kept := filter (λ r, in_bari lat_col lon_col r = true) (rows df_2023) in
    counts_total (incidentGrid (output run)) = Z.of_nat (length kept) ∧
    (∀ key n, incidentGrid (output run) !! key = Some n → (1 <= n)%Z) ∧
    (∀ key, is_Some (incidentGrid (output run) !! key) ↔
            ∃ r, r ∈ kept ∧ grid_key (r !! lat_col) (r !! lon_col) = Ok key).
Proof.
  intros H.
  apply main_ok in H as (q & lat_col & lon_col & grid & street_col & _ & Hlat & Hlon & Hg & _ & _ & ->).
  exists lat_col, lon_col. split; [exact Hlat|]. split; [exact Hlon|].
  cbn [output incidentGrid]. fold (df_bari lat_col lon_col (rows df_2023)).
  destruct (count_cells_total _ _ _ _ _ Hg) as (T & P & K). cbv zeta. split; [|split].
  - rewrite T. unfold counts_total. rewrite map_fold_empty. lia.
  - intros key n Hn. exact (P (map_Forall_empty _) key n Hn).
  - intros key. rewrite K, lookup_empty. split.
    + intros [[? ?] | ?]; [discriminate | assumption].
    + intros ?. now right.
Qed.

(** The second scenario: two kept incidents, one cell with count 2. *)
Lemma X7_grid_counts_witness :
  ∃ run, main survey_A incidents_2 streets_3 = Ok run ∧
         counts_total (incidentGrid (output run)) = 2%Z.
Proof.
  destruct (is_ok_true (main survey_A incidents_2 streets_3)) as [run E];
    [vm_compute; reflexivity|].
  exists run. split; [exact E|].
  destruct (X7_grid_counts _ _ _ run E) as (lat_col & lon_col & Hlat & Hlon & T & _).
  rewrite T. vm_compute in Hlat, Hlon. inversion Hlat. inversion Hlon. subst.
  vm_compute. reflexivity.
Defined.



(** ** Coordinates *)

Section Coordinates.
Local Open Scope Q_scope.
Import B64Facts.








End Coordinates.

(** X9.  Every point of [incidentPoints2023] is a pair of numbers inside
    the closed bounding box: rounding to 5 decimals moves no kept point
    out of the area. *)
Theorem X9_points_in_area (df : DataFrame string) (df_2023 : DataFrame Q)
    (df_2017 : DataFrame string) (run : Run) :
  main df df_2023 df_2017 = Ok run →
  Forall (λ p, ∃ lat lon, p = (Some lat, Some lon) ∧
                 (lit 41.02 <= lat ∧ lat <= lit 41.17)%Q ∧
                 (lit 16.72 <= lon ∧ lon <= lit 17.08)%Q)
    (incidentPoints2023 (output run)).
Proof.
  intros H.
  apply main_ok in H as (q & lat_col & lon_col & grid & street_col & _ & _ & _ & _ & _ & _ & ->).
  cbn [output incidentPoints2023]. apply Forall_take. unfold incident_points.
  apply Forall_fmap. apply Forall_forall. intros r Hr.
  apply list_elem_of_filter in Hr as [Hr _].
  apply in_bari_spec in Hr as (lat & lon & Hlat & Hlon & [A1 A2] & [O1 O2]).
  cbn. rewrite Hlat, Hlon. exists (py_round lat 5), (py_round lon 5).
  split; [reflexivity|].
  assert (P1 : (0 <= lit 41.02)%Q) by discriminate.
  assert (P2 : (0 <= lit 16.72)%Q) by discriminate.
  assert (E1 : py_round (lit 41.02%Q) 5 = lit 41.02%Q) by (vm_compute; reflexivity).
  assert (E2 : py_round (lit 41.17%Q) 5 = lit 41.17%Q) by (vm_compute; reflexivity).
  assert (E3 : py_round (lit 16.72%Q) 5 = lit 16.72%Q) by (vm_compute; reflexivity).
  assert (E4 : py_round (lit 17.08%Q) 5 = lit 17.08%Q) by (vm_compute; reflexivity).
  split; split.
  - rewrite <- E1. now apply py_round_mono.
  - rewrite <- E2. apply py_round_mono; [exact (Qle_trans _ _ _ P1 A1) | exact A2].
  - rewrite <- E3. now apply py_round_mono.
  - rewrite <- E4. apply py_round_mono; [exact (Qle_trans _ _ _ P2 O1) | exact O2].
Qed.

(** The points of the second scenario. *)
Lemma X9_points_in_area_witness :
  ∃ run, main survey_A incidents_2 streets_3 = Ok run ∧
         Forall (λ p, ∃ lat lon, p = (Some lat, Some lon) ∧
                        (lit 41.02 <= lat ∧ lat <= lit 41.17)%Q ∧
                        (lit 16.72 <= lon ∧ lon <= lit 17.08)%Q)
           (incidentPoints2023 (output run)).
Proof.
  destruct (is_ok_true (main survey_A incidents_2 streets_3)) as [run E];
    [vm_compute; reflexivity|].
  exists run. split; [exact E|].
  exact (X9_points_in_area _ _ _ run E).
Defined.



(** X11.  [value_counts] counts every row with a street name once: the
    counts add up to the number of named rows, every count is at least 1
    and belongs to a name that occurs; the filter only removes entries,
    and the entries it keeps are the ones with a count of 2 or more. *)
Theorem X11_street_counts (col : string) (rs : list (gmap string string)) :
  counts_total (value_counts col rs)
  = Z.of_nat (length (filter (λ r, is_Some (r !! col)) rs)) ∧
  (∀ s n, value_counts col rs !! s = Some n →
          (1 <= n)%Z ∧ ∃ r, r ∈ rs ∧ r !! col = Some s) ∧
  street_danger (value_counts col rs) ⊆ value_counts col rs ∧
  (∀ s n, value_counts col rs !! s = Some n →
          (street_danger (value_counts col rs) !! s = Some n ↔ (2 <= n)%Z)).
Proof.
  split; [|split; [|split]].
  - induction rs as [|r rs IH]; [reflexivity|].
    cbn [value_counts foldr]. fold (value_counts col rs).
    destruct (r !! col) as [s|] eqn:E.
    + rewrite counts_total_insert, IH.
      rewrite filter_cons_True by (rewrite E; eauto). cbn [length]. lia.
    + rewrite filter_cons_False by (rewrite E; apply is_Some_None). exact IH.
  - intros s n H. rewrite value_counts_lookup in H.
    destruct (filter (λ r, r !! col = Some s) rs) as [|r g] eqn:E; [discriminate|].
    cbn [length] in H. inversion H as [Hn]. split; [lia|].
    exists r. assert (Hr : r ∈ filter (λ r, r !! col = Some s) rs)
      by (rewrite E; apply list_elem_of_here).
    apply list_elem_of_filter in Hr as [Hr1 Hr2]. auto.
  - apply map_filter_subseteq.
  - intros s n H. unfold street_danger. rewrite map_lookup_filter_Some. cbn [fst snd isna].
    split; [intros (_ & ? & _); assumption | intros ?; auto].
Qed.

(** The third scenario: three named rows, Via A twice. *)
Lemma X11_street_counts_witness :
  counts_total (value_counts "denominazione_strada" (rows streets_3)) = 3%Z ∧
  street_danger (value_counts "denominazione_strada" (rows streets_3)) !! "Via A" = Some 2%Z.
Proof.
  split.
  - rewrite (proj1 (X11_street_counts "denominazione_strada" (rows streets_3))).
    vm_compute. reflexivity.
  - apply (proj2 (proj2 (proj2 (X11_street_counts "denominazione_strada" (rows streets_3))))
             "Via A" 2%Z); [vm_compute; reflexivity | lia].
Defined.

(** ** The risk score grows with the rates *)

Section RiskMonotone.
Local Open Scope Q_scope.
Import B64Facts.

Lemma contribution_mono (s s' : gmap string num) k w :
  0 <= w → rate_le (s !! k) (s' !! k) →
  ∃ t t', contribution s k w = Some t ∧ contribution s' k w = Some t' ∧ 0 <= t ∧ t <= t'.
Proof.
  intros Hw H. unfold contribution, rate_le in *.
  destruct (s !! k) as [[[a|]|]|], (s' !! k) as [[[b|]|]|]; try contradiction; cbn.
  - destruct H as [H0 H1]. exists (fmul a w), (fmul b w).
    split; [reflexivity|]. split; [reflexivity|].
    split; [now apply fmul_nonneg | now apply fmul_mono_l].
  - exists 0, (fmul b w). split; [reflexivity|]. split; [reflexivity|].
    split; [apply Qle_refl | now apply fmul_nonneg].
  - exists 0, 0. split; [reflexivity|]. split; [reflexivity|]. split; apply Qle_refl.
Qed.

Lemma add_mono (s s' t t' : float) :
  (∃ a a', s = Some a ∧ s' = Some a' ∧ 0 <= a ∧ a <= a') →
  (∃ b b', t = Some b ∧ t' = Some b' ∧ 0 <= b ∧ b <= b') →
  ∃ c c', lift2 fadd s t = Some c ∧ lift2 fadd s' t' = Some c' ∧ 0 <= c ∧ c <= c'.
Proof.
  intros (a & a' & -> & -> & Ha0 & Ha1) (b & b' & -> & -> & Hb0 & Hb1).
  exists (fadd a b), (fadd a' b'). split; [reflexivity|]. split; [reflexivity|].
  split; [now apply fadd_nonneg | now apply fadd_mono].
Qed.

Lemma weighted_sum_mono (s s' : gmap string num) :
  (∀ k, k ∈ weights.*1 → rate_le (s !! k) (s' !! k)) →
  ∃ v v', weighted_sum s = Some v ∧ weighted_sum s' = Some v' ∧ 0 <= v ∧ v <= v'.
Proof.
  intros H. unfold weighted_sum. cbv zeta.
  repeat (apply add_mono; [| apply contribution_mono;
    [apply Qle_bool_iff; vm_compute; reflexivity
    | apply H; apply list_elem_of_In; cbn; tauto]]).
  exists 0, 0. split; [reflexivity|]. split; [reflexivity|]. split; apply Qle_refl.
Qed.

End RiskMonotone.

(** X12.  The risk score grows with the rates: when every rate field of
    a dictionary is at least as large in a second one (an absent field
    counting as the smallest), the risk score computed from the second is
    not smaller.  It is 0.0 when no rate field is present and 1.0 when
    all six rates are 1.0. *)
Theorem X12_risk_monotone :
  (∀ s s' : gmap string num,
     (∀ k, k ∈ weights.*1 → rate_le (s !! k) (s' !! k)) →
     ∃ v v', round_f (risk s) 3 = Some v ∧ round_f (risk s') 3 = Some v' ∧
             (0 <= v)%Q ∧ (v <= v')%Q) ∧
  round_f (risk ∅) 3 = Some 0%Q ∧
  round_f (risk all_ones) 3 = Some 1%Q.
Proof.
  split; [|split; vm_compute; reflexivity].
  intros s s' H. rewrite !risk_weighted_sum.
  destruct (weighted_sum_mono s s' H) as (v & v' & -> & -> & H0 & H1).
  exists (py_round v 3), (py_round v' 3).
  split; [reflexivity|]. split; [reflexivity|].
  split; [now apply py_round_nonneg | now apply py_round_mono].
Qed.

(** No rate against all rates at 1.0. *)
Lemma X12_risk_monotone_witness :
  ∃ v v', round_f (risk ∅) 3 = Some v ∧ round_f (risk all_ones) 3 = Some v' ∧
          (0 <= v)%Q ∧ (v <= v')%Q.
Proof.
  apply (proj1 X12_risk_monotone ∅ all_ones).
  intros k Hk. apply list_elem_of_In in Hk. cbn in Hk.
  decompose [or] Hk; subst; try contradiction; vm_compute; discriminate.
Defined.
